(** * c10d process groups and the pending-work registry

    A shallow embedding of [torch/csrc/distributed/c10d/ProcessGroup.cpp]:
    backend resolution and naming in [ProcessGroup], and the registry of
    pending collective works keyed by tensor storage in [WorkRegistry],
    together with the free functions of namespace [c10d] built on it. *)

From stdpp Require Import base option list gmap fin_maps functions strings.

Local Open Scope string_scope.
Local Open Scope list_scope.
Local Open Scope nat_scope.

(** ** Identifiers *)

(** Modelled from the spec: the enumerations [c10::DeviceType] and
    [ProcessGroup::BackendType] are declared outside this file, which uses
    them as map keys and names only [BackendType::UNDEFINED]; a value of
    either is its enumerator number. *)
Definition DeviceType := N.
Definition BackendType := N.
Definition UNDEFINED : BackendType := 0%N.

(** The address of a [c10d::Work] object. *)
Definition WorkId := positive.

(** ** Errors and results

    [TORCH_CHECK(false, ...)] throws a [c10::Error]; a throwing [Work::wait]
    propagates out of the loop that called it, and so does the use of an
    undefined work pointer.  Each throwing place is one constructor. *)
Inductive Error : Type :=
| NoBackendTypeForDevice (deviceType : DeviceType)
| CouldNotRetrieveBackend (backendType : BackendType) (deviceType : DeviceType)
| GroupNameNotSet
| WorkWaitFailed (work : WorkId)
| NullWorkDereferenced.

(** The literal text each [TORCH_CHECK] starts its message with. *)
Definition what (e : Error) : string :=
  match e with
  | NoBackendTypeForDevice _ => "No backend type associated with device type "
  | CouldNotRetrieveBackend _ _ => "Could not retrieve or create the backend "
  | GroupNameNotSet => "ProcessGroup name not set"
  | WorkWaitFailed _ => "Work::wait"
  | NullWorkDereferenced => "null intrusive_ptr"
  end.

Inductive result (A : Type) : Type :=
| Ok (a : A)
| Throw (e : Error).
Arguments Ok {A} a.
Arguments Throw {A} e.

(** ** Operation kinds *)

(** Modelled from the spec: the enumeration [OpType] is declared outside this
    file; its enumerators are the ones the switch of [opTypeToString] names.
    [OpType_invalid] stands for a value of the underlying type that is none
    of them, which an enum variable can hold after a cast. *)
Inductive OpType : Type :=
| BROADCAST
| ALLREDUCE
| ALLREDUCE_COALESCED
| REDUCE
| ALLGATHER
| _ALLGATHER_BASE
| ALLGATHER_COALESCED
| GATHER
| SCATTER
| REDUCE_SCATTER
| ALLTOALL_BASE
| ALLTOALL
| SEND
| RECV
| RECVANYSOURCE
| BARRIER
| UNKNOWN
| _REDUCE_SCATTER_BASE
| COALESCED
| _ALLREDUCE_SPARSE
| OpType_invalid (raw : N).

Global Instance OpType_eq_dec : EqDecision OpType.
Proof. solve_decision. Defined.

(** What a function guarded by [TORCH_INTERNAL_ASSERT] gives back. *)
Inductive asserted (A : Type) : Type :=
| Returns (a : A)
| InternalAssertFailed (msg : string).
Arguments Returns {A} a.
Arguments InternalAssertFailed {A} msg.

Definition opTypeToString (opType : OpType) : asserted string :=
  match opType with
  | BROADCAST => Returns "BROADCAST"
  | ALLREDUCE => Returns "ALLREDUCE"
  | ALLREDUCE_COALESCED => Returns "ALLREDUCE_COALESCED"
  | REDUCE => Returns "REDUCE"
  | ALLGATHER => Returns "ALLGATHER"
  | _ALLGATHER_BASE => Returns "_ALLGATHER_BASE"
  | ALLGATHER_COALESCED => Returns "ALLGATHER_COALESCED"
  | GATHER => Returns "GATHER"
  | SCATTER => Returns "SCATTER"
  | REDUCE_SCATTER => Returns "REDUCE_SCATTER"
  | ALLTOALL_BASE => Returns "ALLTOALL_BASE"
  | ALLTOALL => Returns "ALLTOALL"
  | SEND => Returns "SEND"
  | RECV => Returns "RECV"
  | RECVANYSOURCE => Returns "RECVANYSOURCE"
  | BARRIER => Returns "BARRIER"
  | UNKNOWN => Returns "UNKNOWN"
  | _REDUCE_SCATTER_BASE => Returns "_REDUCE_SCATTER_BASE"
  | COALESCED => Returns "COALESCED"
  | _ALLREDUCE_SPARSE => Returns "_ALLREDUCE_SPARSE"
  | OpType_invalid _ => InternalAssertFailed "Unknown op type!"
  end.

Definition isP2POp (opType : OpType) (batchP2P : bool) : bool :=
  if batchP2P then false
  else bool_decide (opType = SEND) || bool_decide (opType = RECV)
       || bool_decide (opType = RECVANYSOURCE).

(** ** Backends *)

(** Modelled from the spec: the [Backend] class is declared outside this
    file; the group only calls [getGroupUid]/[setGroupUid], [setGroupDesc]
    and [enableCollectivesTiming] on it, so a backend object is the three
    values those calls read and write. *)
Record Backend : Type := mkBackend {
  pg_uid_ : string;
  backend_pg_desc_ : string;
  timing_enabled_ : bool
}.

(** [c10::intrusive_ptr<Backend>]: backends are shared objects, reached from
    both indices of a group; setters mutate the object, not the index. *)
Definition BackendPtr := positive.
Definition BackendHeap := BackendPtr → Backend.

Definition Backend_setGroupUid (name : string) (b : Backend) : Backend :=
  mkBackend name (backend_pg_desc_ b) (timing_enabled_ b).
Definition Backend_setGroupDesc (desc : string) (b : Backend) : Backend :=
  mkBackend (pg_uid_ b) desc (timing_enabled_ b).
Definition Backend_enableCollectivesTiming (b : Backend) : Backend :=
  mkBackend (pg_uid_ b) (backend_pg_desc_ b) true.

(** ** ProcessGroup *)

Record ProcessGroup : Type := mkProcessGroup {
  store_ : option positive;
  rank_ : Z;
  size_ : Z;
  backendType_ : BackendType;
  pg_desc_ : string;
  deviceTypeToBackendType_ : gmap DeviceType BackendType;
  deviceTypeToBackend_ : gmap DeviceType BackendPtr;
  backendTypeToBackend_ : gmap BackendType BackendPtr
}.

Definition set_deviceTypeToBackend
    (m : gmap DeviceType BackendPtr) (pg : ProcessGroup) : ProcessGroup :=
  mkProcessGroup (store_ pg) (rank_ pg) (size_ pg) (backendType_ pg)
    (pg_desc_ pg) (deviceTypeToBackendType_ pg) m (backendTypeToBackend_ pg).

Definition set_pg_desc (desc : string) (pg : ProcessGroup) : ProcessGroup :=
  mkProcessGroup (store_ pg) (rank_ pg) (size_ pg) (backendType_ pg)
    desc (deviceTypeToBackendType_ pg) (deviceTypeToBackend_ pg)
    (backendTypeToBackend_ pg).

(** [m.begin()] of a [std::unordered_map]: some entry of the map, which one
    is up to the container.  The proofs use only [begin_Some] and
    [begin_None] below. *)
Definition begin {K V : Type} `{Countable K} (m : gmap K V) : option (K * V) :=
  head (map_to_list m).

(** [ProcessGroup::getBackend(deviceType)]; the group after the call comes
    first, since a successful miss writes the device-type cache. *)
Definition getBackend (deviceType : DeviceType) (pg : ProcessGroup)
    : ProcessGroup * result BackendPtr :=
  match deviceTypeToBackend_ pg !! deviceType with
  | Some backend => (pg, Ok backend)
  | None =>
    match deviceTypeToBackendType_ pg !! deviceType with
    | None => (pg, Throw (NoBackendTypeForDevice deviceType))
    | Some backendType =>
      match backendTypeToBackend_ pg !! backendType with
      | Some backend =>
        (set_deviceTypeToBackend
           (<[deviceType := backend]> (deviceTypeToBackend_ pg)) pg,
         Ok backend)
      | None => (pg, Throw (CouldNotRetrieveBackend backendType deviceType))
      end
    end
  end.

(** [ProcessGroup::getGroupName() const]. *)
Definition getGroupName (pg : ProcessGroup) (heap : BackendHeap) : result string :=
  match begin (deviceTypeToBackend_ pg) with
  | None => Throw GroupNameNotSet
  | Some (_, backend) => Ok (pg_uid_ (heap backend))
  end.

(** The three range-for loops over [deviceTypeToBackend_]. *)
Definition for_each_backend (f : Backend → Backend)
    (pg : ProcessGroup) (heap : BackendHeap) : BackendHeap :=
  map_fold (λ _ backend h, alter f backend h) heap (deviceTypeToBackend_ pg).

Definition setGroupName (name : string) (pg : ProcessGroup) (heap : BackendHeap)
    : BackendHeap :=
  for_each_backend (Backend_setGroupUid name) pg heap.

Definition getGroupDesc (pg : ProcessGroup) : string := pg_desc_ pg.

Definition setGroupDesc (name : string) (pg : ProcessGroup) (heap : BackendHeap)
    : ProcessGroup * BackendHeap :=
  (set_pg_desc name pg, for_each_backend (Backend_setGroupDesc name) pg heap).

Definition enableCollectivesTiming (pg : ProcessGroup) (heap : BackendHeap)
    : BackendHeap :=
  for_each_backend Backend_enableCollectivesTiming pg heap.

Definition release_resources (pg : ProcessGroup) : ProcessGroup :=
  mkProcessGroup None (rank_ pg) (size_ pg) (backendType_ pg) (pg_desc_ pg)
    (deviceTypeToBackendType_ pg) ∅ ∅.

(** [ProcessGroup::ProcessGroup(store, rank, size)] and
    [ProcessGroup::ProcessGroup(rank, size)]: the members the initializer
    lists name, every other member default-constructed (empty maps, empty
    description, null store). *)
Definition ProcessGroup_with_store (store : option positive) (rank size : Z)
    : ProcessGroup :=
  mkProcessGroup store rank size UNDEFINED "" ∅ ∅ ∅.

Definition ProcessGroup_without_store (rank size : Z) : ProcessGroup :=
  mkProcessGroup None rank size UNDEFINED "" ∅ ∅ ∅.

(** A backend is attached to the group when either index refers to it. *)
Definition cached (pg : ProcessGroup) (b : BackendPtr) : Prop :=
  ∃ deviceType, deviceTypeToBackend_ pg !! deviceType = Some b.
Definition owned (pg : ProcessGroup) (b : BackendPtr) : Prop :=
  ∃ backendType, backendTypeToBackend_ pg !! backendType = Some b.
Definition attached (pg : ProcessGroup) (b : BackendPtr) : Prop :=
  owned pg b ∨ cached pg b.

(** The cache entry of a device type, if there is one, is the backend of the
    backend type configured for it: what [getBackend] writes on a miss. *)
Definition cache_entry_resolved (pg : ProcessGroup) (deviceType : DeviceType)
    : Prop :=
  ∀ backend, deviceTypeToBackend_ pg !! deviceType = Some backend →
    ∃ backendType,
      deviceTypeToBackendType_ pg !! deviceType = Some backendType
      ∧ backendTypeToBackend_ pg !! backendType = Some backend.

Definition cache_resolved (pg : ProcessGroup) : Prop :=
  ∀ deviceType, cache_entry_resolved pg deviceType.

(** Sample groups: only a CPU backend constructed (pointer 7, backend type 1),
    configured for device types 0 (CPU) and 1 (accelerator, backend type 2). *)
Definition sample_heap : BackendHeap := λ _, mkBackend "old" "" false.

Definition sample_pg : ProcessGroup :=
  mkProcessGroup (Some 1%positive) 0 2 UNDEFINED ""
    (<[0%N := 1%N]> (<[1%N := 2%N]> ∅)) ∅ (<[1%N := 7%positive]> ∅).

Definition sample_pg_cached : ProcessGroup :=
  mkProcessGroup (Some 1%positive) 0 2 UNDEFINED ""
    (<[0%N := 1%N]> (<[1%N := 2%N]> ∅))
    (<[0%N := 7%positive]> ∅) (<[1%N := 7%positive]> ∅).

(** Device types 0 and 1 both configured for backend type 1, whose backend
    is constructed and not cached yet. *)
Definition sample_pg_shared : ProcessGroup :=
  mkProcessGroup (Some 1%positive) 0 2 UNDEFINED ""
    (<[0%N := 1%N]> (<[1%N := 1%N]> ∅)) ∅ (<[1%N := 7%positive]> ∅).

(** ** Tensors and works *)

(** Modelled from the spec: the tensor type is declared outside this file.
    The registry needs two things of a buffer, whether it has backing
    storage and a weak reference to that storage, stable and comparable for
    the life of the registry.  A tensor carries its storage pointer, [None]
    when it has no storage; the weak reference is that pointer. *)
Record Tensor : Type := mkTensor {
  tensor_name : string;
  storage : option positive
}.

Definition has_storage (tensor : Tensor) : bool :=
  match storage tensor with Some _ => true | None => false end.

Definition getWeakStorageImpl (tensor : Tensor) : option positive :=
  storage tensor.

(** [c10::intrusive_ptr<c10d::Work>]: [None] is the undefined pointer. *)
Abbreviation WorkPtr := (option WorkId).

Definition defined (work : WorkPtr) : bool :=
  match work with Some _ => true | None => false end.

(** Modelled from the spec: the [Work] class and the accelerator runtime are
    declared outside this file.  [Work::isCompleted] does not block and does
    not throw; [Work::wait] blocks and may propagate the failure of the
    operation, which [wait_fails] records.  With the two build macros and the
    two queries of the accelerator runtime this is what the registry observes
    of its surroundings during one call. *)
Record Env : Type := mkEnv {
  USE_CUDA : bool;
  USE_ROCM : bool;
  cuda_is_available : bool;
  CUDAGraph_is_capturing : bool;
  isCompleted : WorkId → bool;
  wait_fails : WorkId → bool
}.

(** Calls that leave the registry: waits and warnings, in program order. *)
Inductive Event : Type :=
| EvWait (work : WorkId)
| EvWarnOnceNoStorage (tensor : string)
| EvWarnUnwaited (registry_size : nat).

(** The registry of one rank, the flag behind [TORCH_WARN_ONCE], and the
    events so far.  [lock_] is held for the whole of each method, so a method
    is one step on this state. *)
Record World : Type := mkWorld {
  registry_ : gmap (option positive) (list WorkPtr);
  warned_once_ : bool;
  trace : list Event
}.

Definition set_registry (r : gmap (option positive) (list WorkPtr)) (W : World)
    : World :=
  mkWorld r (warned_once_ W) (trace W).

Definition emit (e : Event) (W : World) : World :=
  mkWorld (registry_ W) (warned_once_ W) (trace W ++ [e]).

(** State with exceptions: the state survives a throw. *)
Definition M (A : Type) : Type := World → World * result A.

Definition ret {A : Type} (a : A) : M A := λ W, (W, Ok a).

Definition bind {A B : Type} (m : M A) (k : A → M B) : M B :=
  λ W, match m W with
       | (W', Ok a) => k a W'
       | (W', Throw e) => (W', Throw e)
       end.

Notation "'let*' x ':=' m 'in' k" := (bind m (λ x, k))
  (at level 10, x binder, m at level 100, k at level 200).

Definition TORCH_WARN_ONCE (e : Event) : M unit :=
  λ W, if warned_once_ W then (W, Ok tt)
       else (mkWorld (registry_ W) true (trace W ++ [e]), Ok tt).

Definition TORCH_WARN (e : Event) : M unit := λ W, (emit e W, Ok tt).

Module WorkRegistry.

Definition register_work (tensor : Tensor) (work : WorkPtr) : M unit :=
  if negb (has_storage tensor) then
    TORCH_WARN_ONCE (EvWarnOnceNoStorage (tensor_name tensor))
  else λ W,
    let storage := getWeakStorageImpl tensor in
    match registry_ W !! storage with
    | None => (set_registry (<[storage := [work]]> (registry_ W)) W, Ok tt)
    | Some works =>
      (set_registry (<[storage := works ++ [work]]> (registry_ W)) W, Ok tt)
    end.

Definition pop_works (tensor : Tensor) : M (list WorkPtr) :=
  λ W,
    let storage := getWeakStorageImpl tensor in
    match registry_ W !! storage with
    | None => (W, Ok [])
    | Some works => (set_registry (delete storage (registry_ W)) W, Ok works)
    end.

Definition can_unregister_completed_works (env : Env) : M bool :=
  if USE_CUDA env && negb (USE_ROCM env) then
    if cuda_is_available env && negb (CUDAGraph_is_capturing env)
    then ret false
    else ret true
  else ret true.

(** [work.defined() && !work->isCompleted()] *)
Definition uncompleted (env : Env) (work : WorkPtr) : bool :=
  match work with
  | Some w => negb (isCompleted env w)
  | None => false
  end.

(** One turn of the outer loop: the entry is erased ([None]) or replaced. *)
Definition sweep_entry (env : Env) (works : list WorkPtr)
    : option (list WorkPtr) :=
  let uncompleted_works := filter (λ work, uncompleted env work) works in
  match uncompleted_works with
  | [] => None
  | _ :: _ => Some uncompleted_works
  end.

Definition unregister_completed_works (env : Env) : M unit :=
  λ W, (set_registry (omap (sweep_entry env) (registry_ W)) W, Ok tt).

Definition total_size (r : gmap (option positive) (list WorkPtr)) : nat :=
  map_fold (λ _ works total_size, total_size + length works) 0 r.

Definition get_work_registry_size : M nat :=
  λ W, (W, Ok (total_size (registry_ W))).

(** [work.release()] on every held pointer: the pointer becomes undefined
    and the work object is neither waited on nor destroyed. *)
Definition release_all : M unit :=
  λ W, (set_registry (fmap (M := list) (λ _, None) <$> registry_ W) W, Ok tt).

(** [~WorkRegistry()] *)
Definition destructor : M unit :=
  let* registry_size := get_work_registry_size in
  let* _ := (if bool_decide (0 < registry_size)
             then TORCH_WARN (EvWarnUnwaited registry_size)
             else ret tt) in
  release_all.

End WorkRegistry.

Module c10d.

Definition register_work (env : Env) (tensor : Tensor) (work : WorkPtr)
    : M unit :=
  let* can := WorkRegistry.can_unregister_completed_works env in
  let* _ := (if can : bool
             then WorkRegistry.unregister_completed_works env
             else ret tt) in
  WorkRegistry.register_work tensor work.

(** [work->wait()] *)
Definition wait (env : Env) (work : WorkPtr) : M unit :=
  match work with
  | None => λ W, (W, Throw NullWorkDereferenced)
  | Some w =>
    λ W, (emit (EvWait w) W,
          if wait_fails env w then Throw (WorkWaitFailed w) else Ok tt)
  end.

Fixpoint wait_each (env : Env) (works : list WorkPtr) : M unit :=
  match works with
  | [] => ret tt
  | work :: rest => let* _ := wait env work in wait_each env rest
  end.

Definition wait_tensor (env : Env) (tensor : Tensor) : M Tensor :=
  let* works := WorkRegistry.pop_works tensor in
  let* _ := wait_each env works in
  ret tensor.

Definition unregister_completed_works (env : Env) : M unit :=
  WorkRegistry.unregister_completed_works env.

Definition get_work_registry_size : M nat :=
  WorkRegistry.get_work_registry_size.

End c10d.

(** ** Vocabulary of the statements *)

(** No entry of the registry holds an empty list. *)
Definition no_empty_lists (r : gmap (option positive) (list WorkPtr)) : Prop :=
  map_Forall (λ _ works, works ≠ []) r.

(** The works registered against the storage of [tensor]. *)
Definition pending (W : World) (tensor : Tensor) : list WorkPtr :=
  default [] (registry_ W !! getWeakStorageImpl tensor).

(** [WorkRegistry::register_work] once per work, in order. *)
Definition register_all (tensor : Tensor) (works : list WorkPtr) (W : World)
    : World :=
  foldl (λ W' work, (WorkRegistry.register_work tensor work W').1) W works.

(** Works the sweep removes, counted over the whole registry. *)
Definition swept (env : Env) (r : gmap (option positive) (list WorkPtr)) : nat :=
  map_fold (λ _ works n,
              n + length (filter (λ work, ¬ WorkRegistry.uncompleted env work)
                            works)) 0 r.

(** The spec's words for the sweep: a handle is dropped when it is both
    defined and completed, every other handle stays. *)
Definition completed_and_defined (env : Env) (work : WorkPtr) : bool :=
  match work with
  | Some w => isCompleted env w
  | None => false
  end.

Definition sweep_entry_per_spec (env : Env) (works : list WorkPtr)
    : option (list WorkPtr) :=
  match filter (λ work, ¬ completed_and_defined env work) works with
  | [] => None
  | rest => Some rest
  end.

(** Every work the registry holds is defined and has not completed. *)
Definition all_uncompleted (env : Env)
    (r : gmap (option positive) (list WorkPtr)) : Prop :=
  map_Forall (λ _ works,
                Forall (λ work, WorkRegistry.uncompleted env work = true) works)
    r.

(** No entry is keyed by the null weak reference, the key of a tensor
    without storage. *)
Definition no_null_key (r : gmap (option positive) (list WorkPtr)) : Prop :=
  r !! None = None.

(** Sample surroundings and registries.  Works 1 and 2 have completed, work 3
    is pending; no wait fails. *)
Definition sample_isCompleted (w : WorkId) : bool :=
  bool_decide (w = 1%positive) || bool_decide (w = 2%positive).

Definition cpu_env : Env :=
  mkEnv false false false false sample_isCompleted (λ _, false).
Definition cuda_idle_env : Env :=
  mkEnv true false true false sample_isCompleted (λ _, false).
Definition cuda_capturing_env : Env :=
  mkEnv true false true true sample_isCompleted (λ _, false).

Definition sample_tensor : Tensor := mkTensor "t" (Some 9%positive).
Definition sample_meta_tensor : Tensor := mkTensor "meta" None.

Definition empty_world : World := mkWorld ∅ false [].

Definition sample_world : World :=
  mkWorld (<[Some 9%positive :=
               [Some 1%positive; Some 2%positive; Some 3%positive]]> ∅)
    false [].

Definition sample_world_undefined : World :=
  mkWorld (<[Some 9%positive := [None; Some 3%positive]]> ∅) false [].

(** * Properties *)

(** ** Samples *)

Example getBackend_sample_cpu :
  (getBackend 0%N sample_pg).2 = Ok 7%positive
  ∧ deviceTypeToBackend_ (getBackend 0%N sample_pg).1 !! 0%N = Some 7%positive.
Proof. vm_compute. done. Qed.

Example getBackend_sample_accel :
  (getBackend 1%N sample_pg).2 = Throw (CouldNotRetrieveBackend 2%N 1%N).
Proof. vm_compute. done. Qed.

Example getGroupName_sample :
  getGroupName sample_pg sample_heap = Throw GroupNameNotSet
  ∧ getGroupName sample_pg_cached (setGroupName "g" sample_pg_cached sample_heap)
    = Ok "g".
Proof. vm_compute. done. Qed.

(** ** Backend resolution *)

Section begin_facts.
Context {K V : Type} `{Countable K}.
Implicit Types m : gmap K V.

Lemma begin_None m : begin m = None ↔ m = ∅.
Proof.
  unfold begin. rewrite <- map_to_list_empty_iff.
  destruct (map_to_list m); simpl; split; congruence.
Qed.

Lemma begin_Some m k v : begin m = Some (k, v) → m !! k = Some v.
Proof.
  unfold begin. intros Hhd. apply elem_of_map_to_list.
  destruct (map_to_list m) as [|kv l]; simplify_eq/=. left.
Qed.

Lemma begin_nonempty m : m ≠ ∅ → ∃ k v, begin m = Some (k, v).
Proof.
  intros Hne. destruct (begin m) as [[k v]|] eqn:E; [by eauto|].
  by apply begin_None in E.
Qed.
End begin_facts.

Lemma getBackend_hit deviceType pg backend :
  deviceTypeToBackend_ pg !! deviceType = Some backend →
  getBackend deviceType pg = (pg, Ok backend).
Proof. unfold getBackend. by intros ->. Qed.

Lemma cache_entry_resolved_miss deviceType pg :
  deviceTypeToBackend_ pg !! deviceType = None →
  cache_entry_resolved pg deviceType.
Proof. intros Hmiss backend. by rewrite Hmiss. Qed.

Lemma cache_resolved_release_resources pg :
  cache_resolved (release_resources pg).
Proof. intros d b. simpl. by rewrite lookup_empty. Qed.

Lemma cache_resolved_getBackend deviceType pg :
  cache_resolved pg → cache_resolved (getBackend deviceType pg).1.
Proof.
  intros Hinv. unfold getBackend.
  destruct (deviceTypeToBackend_ pg !! deviceType) as [b|] eqn:Hc; [done|].
  destruct (deviceTypeToBackendType_ pg !! deviceType) as [bt|] eqn:Hbt;
    [|done].
  destruct (backendTypeToBackend_ pg !! bt) as [b|] eqn:Hb; [|done].
  intros d b'. simpl. destruct (decide (deviceType = d)) as [<-|Hne].
  - rewrite lookup_insert_eq. intros [= <-]. by exists bt.
  - rewrite lookup_insert_ne by done. apply Hinv.
Qed.

(** C5: [getBackend] returns a cached backend as it is; on a cache miss it
    throws "No backend type associated with device type" when the device
    type has no configured backend type, and throws "Could not retrieve or
    create the backend" when the configured backend type has no backend
    instance, leaving the group as it was in both cases; on a cache miss
    with a configured backend type that has an instance it returns that
    instance and caches it under the device type, no other cache entry
    changing, so that a second call returns it from the cache.  Every
    success is one of the two: the cached backend, or the instance of the
    configured type, and either way the backend is cached afterwards. *)
Theorem getBackend_resolution (deviceType : DeviceType) (pg : ProcessGroup) :
  (∀ backend,
     deviceTypeToBackend_ pg !! deviceType = Some backend →
     getBackend deviceType pg = (pg, Ok backend))
  ∧ (deviceTypeToBackend_ pg !! deviceType = None →
     deviceTypeToBackendType_ pg !! deviceType = None →
     getBackend deviceType pg = (pg, Throw (NoBackendTypeForDevice deviceType)))
  ∧ (∀ backendType,
       deviceTypeToBackend_ pg !! deviceType = None →
       deviceTypeToBackendType_ pg !! deviceType = Some backendType →
       backendTypeToBackend_ pg !! backendType = None →
       getBackend deviceType pg
       = (pg, Throw (CouldNotRetrieveBackend backendType deviceType)))
  ∧ (∀ backendType backend,
       deviceTypeToBackend_ pg !! deviceType = None →
       deviceTypeToBackendType_ pg !! deviceType = Some backendType →
       backendTypeToBackend_ pg !! backendType = Some backend →
       let pg' :=
         set_deviceTypeToBackend
           (<[deviceType := backend]> (deviceTypeToBackend_ pg)) pg in
       getBackend deviceType pg = (pg', Ok backend)
       ∧ deviceTypeToBackend_ pg' !! deviceType = Some backend
       ∧ (∀ d, d ≠ deviceType →
            deviceTypeToBackend_ pg' !! d = deviceTypeToBackend_ pg !! d)
       ∧ backendTypeToBackend_ pg' = backendTypeToBackend_ pg
       ∧ deviceTypeToBackendType_ pg' = deviceTypeToBackendType_ pg
       ∧ getBackend deviceType pg' = (pg', Ok backend))
  ∧ (∀ pg' backend,
       getBackend deviceType pg = (pg', Ok backend) →
       (deviceTypeToBackend_ pg !! deviceType = Some backend ∧ pg' = pg
        ∨ deviceTypeToBackend_ pg !! deviceType = None
          ∧ ∃ backendType,
              deviceTypeToBackendType_ pg !! deviceType = Some backendType
              ∧ backendTypeToBackend_ pg !! backendType = Some backend)
       ∧ deviceTypeToBackend_ pg' !! deviceType = Some backend
       ∧ getBackend deviceType pg' = (pg', Ok backend)).
Proof.
  split_and!.
  - apply getBackend_hit.
  - unfold getBackend. by intros -> ->.
  - unfold getBackend. by intros backendType -> -> ->.
  - intros backendType backend Hmiss Hcfg Hlive. cbv zeta.
    assert (Hhit : deviceTypeToBackend_
                     (set_deviceTypeToBackend
                        (<[deviceType := backend]> (deviceTypeToBackend_ pg))
                        pg) !! deviceType = Some backend)
      by apply lookup_insert_eq.
    split_and!; try done.
    + unfold getBackend. by rewrite Hmiss, Hcfg, Hlive.
    + intros d Hd. by apply lookup_insert_ne.
    + by apply getBackend_hit.
  - intros pg' backend. unfold getBackend at 1.
    destruct (deviceTypeToBackend_ pg !! deviceType) as [cachedb|] eqn:Hc.
    + intros [= <- <-]. split_and!; [by left|done|by apply getBackend_hit].
    + destruct (deviceTypeToBackendType_ pg !! deviceType) as [bt|] eqn:Hbt;
        [|done].
      destruct (backendTypeToBackend_ pg !! bt) as [b|] eqn:Hb; [|done].
      intros [= <- <-].
      assert (Hhit : deviceTypeToBackend_
                       (set_deviceTypeToBackend
                          (<[deviceType := b]> (deviceTypeToBackend_ pg)) pg)
                       !! deviceType = Some b)
        by apply lookup_insert_eq.
      split_and!; [right; split; [done|by exists bt]|done|].
      by apply getBackend_hit.
Qed.

Lemma getBackend_resolution_witness :
  (getBackend 0%N sample_pg
   = (set_deviceTypeToBackend
        (<[0%N := 7%positive]> (deviceTypeToBackend_ sample_pg)) sample_pg,
      Ok 7%positive)
   ∧ deviceTypeToBackend_ (getBackend 0%N sample_pg).1 !! 0%N
     = Some 7%positive)
  ∧ getBackend 1%N sample_pg
    = (sample_pg, Throw (CouldNotRetrieveBackend 2%N 1%N))
  ∧ getBackend 5%N sample_pg = (sample_pg, Throw (NoBackendTypeForDevice 5%N))
  ∧ getBackend 0%N sample_pg_cached = (sample_pg_cached, Ok 7%positive).
Proof.
  split; [|split; [|split]].
  - pose proof (proj1 (proj2 (proj2 (proj2
                  (getBackend_resolution 0%N sample_pg)))) 1%N 7%positive
                  eq_refl eq_refl eq_refl) as Hhit.
    cbv zeta in Hhit. destruct Hhit as (Hrun & _).
    split; [exact Hrun|]. rewrite Hrun. reflexivity.
  - apply (proj1 (proj2 (proj2 (getBackend_resolution 1%N sample_pg))) 2%N);
      reflexivity.
  - apply (proj1 (proj2 (getBackend_resolution 5%N sample_pg))); reflexivity.
  - apply (proj1 (getBackend_resolution 0%N sample_pg_cached) 7%positive).
    reflexivity.
Defined.

(** ** Group name and description *)

(** C6, as the code has it: [getGroupName] reads the name from the first
    entry of the device-type index and throws "ProcessGroup name not set"
    exactly when that index is empty, so also when no backend is attached and
    after [release_resources]; the backend-type index plays no part. *)
Theorem getGroupName_from_device_index (pg : ProcessGroup) (heap : BackendHeap) :
  (getGroupName pg heap = Throw GroupNameNotSet ↔ deviceTypeToBackend_ pg = ∅)
  ∧ (deviceTypeToBackend_ pg ≠ ∅ →
     ∃ deviceType backend,
       begin (deviceTypeToBackend_ pg) = Some (deviceType, backend)
       ∧ deviceTypeToBackend_ pg !! deviceType = Some backend
       ∧ getGroupName pg heap = Ok (pg_uid_ (heap backend)))
  ∧ ((∀ b, ¬ attached pg b) → getGroupName pg heap = Throw GroupNameNotSet)
  ∧ getGroupName (release_resources pg) heap = Throw GroupNameNotSet.
Proof.
  assert (Hempty : ∀ g, deviceTypeToBackend_ g = ∅ →
                        getGroupName g heap = Throw GroupNameNotSet).
  { intros g Hg. unfold getGroupName.
    by rewrite (proj2 (begin_None _) Hg). }
  split_and!.
  - split; [|by apply Hempty].
    unfold getGroupName.
    destruct (begin (deviceTypeToBackend_ pg)) as [[d b]|] eqn:E; [done|].
    intros _. by apply begin_None.
  - intros Hne. destruct (begin_nonempty _ Hne) as (d & b & Hb).
    exists d, b. split_and!; [done|by apply begin_Some|].
    unfold getGroupName. by rewrite Hb.
  - intros Hnone. apply Hempty. apply map_empty. intros d.
    destruct (deviceTypeToBackend_ pg !! d) as [b|] eqn:E; [|done].
    destruct (Hnone b). right. by exists d.
  - by apply Hempty.
Qed.

Lemma getGroupName_from_device_index_witness :
  ∃ deviceType backend,
    begin (deviceTypeToBackend_ sample_pg_cached) = Some (deviceType, backend)
    ∧ deviceTypeToBackend_ sample_pg_cached !! deviceType = Some backend
    ∧ getGroupName sample_pg_cached sample_heap
      = Ok (pg_uid_ (sample_heap backend)).
Proof.
  apply (proj1 (proj2
           (getGroupName_from_device_index sample_pg_cached sample_heap))).
  intros Hempty.
  assert (Hl : deviceTypeToBackend_ sample_pg_cached !! 0%N = Some 7%positive)
    by reflexivity.
  rewrite Hempty in Hl. discriminate Hl.
Defined.

(** C6 as stated fails: a group whose backend-type index holds a backend that
    no device type has cached yet has a first entry in that index, and
    [getGroupName] throws all the same. *)
Lemma getGroupName_ignores_backend_type_index :
  ¬ (∀ (pg : ProcessGroup) (heap : BackendHeap) backendType backend,
       begin (backendTypeToBackend_ pg) = Some (backendType, backend) →
       getGroupName pg heap = Ok (pg_uid_ (heap backend))).
Proof.
  intros Hclaim.
  specialize (Hclaim sample_pg sample_heap 1%N 7%positive eq_refl).
  vm_compute in Hclaim. discriminate Hclaim.
Qed.

(** C10: the description is a field of the group: [getGroupDesc] after
    [setGroupDesc d] is [d], with or without backends, and
    [release_resources] before or after the call does not change that. *)
Theorem getGroupDesc_setGroupDesc
    (pg : ProcessGroup) (heap : BackendHeap) (d : string) :
  getGroupDesc (setGroupDesc d pg heap).1 = d
  ∧ getGroupDesc (release_resources (setGroupDesc d pg heap).1) = d
  ∧ getGroupDesc (setGroupDesc d (release_resources pg) heap).1 = d
  ∧ getGroupDesc (release_resources pg) = getGroupDesc pg.
Proof. done. Qed.

(** ** Broadcast of name, description and timing flag *)

(** After the loop a backend holds [f] of its old value if some device type
    has it cached (however many device types share it, [f] being
    idempotent), and its old value otherwise. *)
Lemma for_each_backend_spec (f : Backend → Backend)
    (pg : ProcessGroup) (heap : BackendHeap) :
  (∀ b, f (f b) = f b) →
  ∀ p, (cached pg p → for_each_backend f pg heap p = f (heap p))
     ∧ (¬ cached pg p → for_each_backend f pg heap p = heap p).
Proof.
  intros Hidem. unfold for_each_backend, cached.
  set (P := λ (r : BackendHeap) (m : gmap DeviceType BackendPtr),
         ∀ p, (r p = f (heap p) ∨ r p = heap p)
            ∧ ((∃ d, m !! d = Some p) → r p = f (heap p))
            ∧ (¬ (∃ d, m !! d = Some p) → r p = heap p)).
  assert (HP : P (map_fold (λ _ backend h, alter f backend h) heap
                    (deviceTypeToBackend_ pg)) (deviceTypeToBackend_ pg)).
  { apply (map_fold_weak_ind P); subst P; cbv beta.
    - intros p. split_and!; [by right| |done].
      intros [d Hd]. by rewrite lookup_empty in Hd.
    - intros i x m r Hi IH p. destruct (decide (x = p)) as [->|Hne].
      + rewrite (fn_lookup_alter f r p).
        assert (Hfp : f (r p) = f (heap p)).
        { destruct (IH p) as ([->| ->] & _ & _); [apply Hidem|done]. }
        split_and!; [by left|done|].
        intros Hno. destruct Hno. exists i. apply lookup_insert_eq.
      + rewrite (fn_lookup_alter_ne f r x p) by done.
        destruct (IH p) as (Hor & Hin & Hout). split_and!; [done| |].
        * intros [d Hd]. apply Hin. exists d.
          destruct (decide (i = d)) as [->|Hid].
          -- rewrite lookup_insert_eq in Hd. congruence.
          -- by rewrite lookup_insert_ne in Hd.
        * intros Hno. apply Hout. intros [d Hd]. apply Hno. exists d.
          destruct (decide (i = d)) as [->|Hid]; [congruence|].
          by rewrite lookup_insert_ne. }
  intros p. destruct (HP p) as (_ & Hin & Hout). by split.
Qed.

(** What the three loops do: they write the value into every backend that
    some device type has cached, and into no other backend. *)
Lemma setters_reach_cached_backends
    (pg : ProcessGroup) (heap : BackendHeap) (name desc : string)
    (b : BackendPtr) :
  (cached pg b →
     pg_uid_ (setGroupName name pg heap b) = name
     ∧ backend_pg_desc_ ((setGroupDesc desc pg heap).2 b) = desc
     ∧ timing_enabled_ (enableCollectivesTiming pg heap b) = true)
  ∧ (¬ cached pg b →
     setGroupName name pg heap b = heap b
     ∧ (setGroupDesc desc pg heap).2 b = heap b
     ∧ enableCollectivesTiming pg heap b = heap b).
Proof.
  unfold setGroupName, setGroupDesc, enableCollectivesTiming. simpl.
  split; intros Hb; split_and!.
  - by rewrite (proj1 (for_each_backend_spec (Backend_setGroupUid name)
                         pg heap (λ _, eq_refl) b) Hb).
  - by rewrite (proj1 (for_each_backend_spec (Backend_setGroupDesc desc)
                         pg heap (λ _, eq_refl) b) Hb).
  - by rewrite (proj1 (for_each_backend_spec Backend_enableCollectivesTiming
                         pg heap (λ _, eq_refl) b) Hb).
  - by apply (for_each_backend_spec (Backend_setGroupUid name) pg heap).
  - by apply (for_each_backend_spec (Backend_setGroupDesc desc) pg heap).
  - by apply (for_each_backend_spec Backend_enableCollectivesTiming pg heap).
Qed.

(** C3 at the input where the code departs from it: backend 7 belongs to
    the group through the backend-type index and no device type has it
    cached yet, the state the second lookup of [getBackend] exists for.
    [setGroupName], [setGroupDesc] and [enableCollectivesTiming] leave its
    name, description and flag as they were, although [setGroupDesc] stores
    the description in the group itself; once [getBackend] has cached the
    backend, [getGroupName] answers the old name.  So not every attached
    backend observes the value. *)
Theorem setters_skip_owned_backend :
  attached sample_pg 7%positive
  ∧ ¬ cached sample_pg 7%positive
  ∧ pg_uid_ (setGroupName "new" sample_pg sample_heap 7%positive) = "old"
  ∧ backend_pg_desc_
      ((setGroupDesc "desc" sample_pg sample_heap).2 7%positive) = ""
  ∧ getGroupDesc (setGroupDesc "desc" sample_pg sample_heap).1 = "desc"
  ∧ timing_enabled_
      (enableCollectivesTiming sample_pg sample_heap 7%positive) = false
  ∧ getBackend 0%N sample_pg
    = (set_deviceTypeToBackend
         (<[0%N := 7%positive]> (deviceTypeToBackend_ sample_pg)) sample_pg,
       Ok 7%positive)
  ∧ getGroupName (getBackend 0%N sample_pg).1
      (setGroupName "new" sample_pg sample_heap) = Ok "old"
  ∧ ¬ (∀ (pg : ProcessGroup) (heap : BackendHeap) (name : string) b,
         attached pg b → pg_uid_ (setGroupName name pg heap b) = name)
  ∧ ¬ (∀ (pg : ProcessGroup) (heap : BackendHeap) (desc : string) b,
         attached pg b →
         backend_pg_desc_ ((setGroupDesc desc pg heap).2 b) = desc)
  ∧ ¬ (∀ (pg : ProcessGroup) (heap : BackendHeap) b,
         attached pg b →
         timing_enabled_ (enableCollectivesTiming pg heap b) = true).
Proof.
  assert (Hatt : attached sample_pg 7%positive).
  { left. exists 1%N. reflexivity. }
  split_and!; try reflexivity.
  - done.
  - intros [d Hd]. vm_compute in Hd. discriminate Hd.
  - intros Hclaim.
    specialize (Hclaim sample_pg sample_heap "new" 7%positive Hatt).
    vm_compute in Hclaim. discriminate Hclaim.
  - intros Hclaim.
    specialize (Hclaim sample_pg sample_heap "desc" 7%positive Hatt).
    vm_compute in Hclaim. discriminate Hclaim.
  - intros Hclaim.
    specialize (Hclaim sample_pg sample_heap 7%positive Hatt).
    vm_compute in Hclaim. discriminate Hclaim.
Qed.

(** ** The registry: size and sweep *)

Section registry_facts.
Implicit Types r : gmap (option positive) (list WorkPtr).
Implicit Types works : list WorkPtr.

Lemma total_size_empty : WorkRegistry.total_size ∅ = 0.
Proof. apply map_fold_empty. Qed.

Lemma total_size_insert_fresh r k works :
  r !! k = None →
  WorkRegistry.total_size (<[k := works]> r)
  = WorkRegistry.total_size r + length works.
Proof.
  intros Hk. unfold WorkRegistry.total_size.
  rewrite map_fold_insert_L; [done| |done]. intros. lia.
Qed.

Lemma total_size_insert r k works :
  WorkRegistry.total_size (<[k := works]> r)
  = WorkRegistry.total_size (delete k r) + length works.
Proof.
  rewrite <- (insert_delete_eq r k works).
  apply total_size_insert_fresh, lookup_delete_eq.
Qed.

Lemma total_size_delete r k works :
  r !! k = Some works →
  WorkRegistry.total_size r
  = WorkRegistry.total_size (delete k r) + length works.
Proof.
  intros Hk. rewrite <- (insert_id r k works Hk) at 1.
  apply total_size_insert.
Qed.

Lemma swept_insert_fresh env r k works :
  r !! k = None →
  swept env (<[k := works]> r)
  = swept env r
    + length (filter (λ work, ¬ WorkRegistry.uncompleted env work) works).
Proof.
  intros Hk. unfold swept.
  rewrite map_fold_insert_L; [done| |done]. intros. lia.
Qed.

Lemma length_filter_split (P : WorkPtr → Prop) `{∀ w, Decision (P w)} works :
  length works
  = length (filter P works) + length (filter (λ w, ¬ P w) works).
Proof.
  induction works as [|w works IH]; [done|].
  rewrite !filter_cons. destruct (decide (P w)), (decide (¬ P w));
    simpl; try lia; tauto.
Qed.

Lemma sweep_entry_Some env works kept :
  WorkRegistry.sweep_entry env works = Some kept ↔
  kept = filter (λ work, WorkRegistry.uncompleted env work) works
  ∧ kept ≠ [].
Proof.
  unfold WorkRegistry.sweep_entry.
  destruct (filter _ works) as [|w l]; split.
  - done.
  - by intros [-> ?].
  - by intros [= <-].
  - by intros [-> _].
Qed.

Lemma sweep_entry_None env works :
  WorkRegistry.sweep_entry env works = None ↔
  filter (λ work, WorkRegistry.uncompleted env work) works = [].
Proof.
  unfold WorkRegistry.sweep_entry. by destruct (filter _ works).
Qed.

Lemma sweep_entry_length env works :
  length works
  = length (default [] (WorkRegistry.sweep_entry env works))
    + length (filter (λ work, ¬ WorkRegistry.uncompleted env work) works).
Proof.
  rewrite (length_filter_split
             (λ work, WorkRegistry.uncompleted env work) works).
  unfold WorkRegistry.sweep_entry. by destruct (filter _ works).
Qed.

(** The sweep accounts for every work: what it leaves plus what it removes
    is what was there. *)
Lemma total_size_sweep env r :
  WorkRegistry.total_size r
  = WorkRegistry.total_size (omap (WorkRegistry.sweep_entry env) r)
    + swept env r.
Proof.
  induction r as [|k works r Hk IH] using map_ind.
  - rewrite omap_empty. unfold swept.
    by rewrite total_size_empty, map_fold_empty.
  - rewrite total_size_insert_fresh, swept_insert_fresh by done.
    rewrite omap_insert.
    pose proof (sweep_entry_length env works) as Hlen.
    destruct (WorkRegistry.sweep_entry env works) as [kept|].
    + rewrite total_size_insert_fresh
        by (rewrite lookup_omap, Hk; done).
      simpl in Hlen. lia.
    + rewrite delete_id by (rewrite lookup_omap, Hk; done).
      simpl in Hlen. lia.
Qed.

Lemma no_empty_lists_sweep env r :
  no_empty_lists (omap (WorkRegistry.sweep_entry env) r).
Proof.
  intros k kept. rewrite lookup_omap.
  destruct (r !! k) as [works|]; simpl; [|done].
  intros Hs. by apply sweep_entry_Some in Hs as [_ ?].
Qed.
End registry_facts.

(** ** The monad and the wait loop *)

Lemma wait_each_registry env works W :
  registry_ (c10d.wait_each env works W).1 = registry_ W
  ∧ warned_once_ (c10d.wait_each env works W).1 = warned_once_ W.
Proof.
  revert W. induction works as [|[w|] works IH]; intros W; simpl; [done| |done].
  unfold bind. simpl. destruct (wait_fails env w); [done|].
  destruct (IH (emit (EvWait w) W)) as [-> ->]. done.
Qed.

(** Works that are defined and whose wait returns are waited on one by one,
    in list order. *)
Lemma wait_each_ok env (ids : list WorkId) W :
  Forall (λ w, wait_fails env w = false) ids →
  c10d.wait_each env (Some <$> ids) W
  = (mkWorld (registry_ W) (warned_once_ W) (trace W ++ (EvWait <$> ids)),
     Ok tt).
Proof.
  intros Hok. revert W. induction Hok as [|w ids Hw _ IH]; intros W; simpl.
  - unfold ret. rewrite app_nil_r. by destruct W.
  - unfold bind. simpl. rewrite Hw, IH. simpl.
    by rewrite <- app_assoc.
Qed.

(** ** C7: no empty lists *)

Lemma no_empty_lists_empty : no_empty_lists ∅.
Proof. apply map_Forall_empty. Qed.

Lemma no_empty_lists_register tensor work W :
  no_empty_lists (registry_ W) →
  no_empty_lists (registry_ (WorkRegistry.register_work tensor work W).1).
Proof.
  intros Hinv. unfold WorkRegistry.register_work.
  destruct (has_storage tensor); simpl.
  - destruct (registry_ W !! getWeakStorageImpl tensor) as [works|]; simpl;
      apply map_Forall_insert_2; try done.
    by destruct works.
  - unfold TORCH_WARN_ONCE. by destruct (warned_once_ W).
Qed.

Lemma no_empty_lists_pop tensor W :
  no_empty_lists (registry_ W) →
  no_empty_lists (registry_ (WorkRegistry.pop_works tensor W).1).
Proof.
  intros Hinv. unfold WorkRegistry.pop_works.
  destruct (registry_ W !! getWeakStorageImpl tensor); simpl; [|done].
  by apply map_Forall_delete.
Qed.

(** C7: the registry never maps a storage to an empty list: the empty
    registry has the property, and registering a work (by the method or by the
    free function, which may sweep first), popping the works of a tensor,
    waiting on a tensor and sweeping completed works all keep it. *)
Theorem registry_never_holds_empty_lists
    (env : Env) (tensor : Tensor) (work : WorkPtr) (W : World) :
  no_empty_lists (registry_ W) →
  no_empty_lists (registry_ (WorkRegistry.register_work tensor work W).1)
  ∧ no_empty_lists (registry_ (WorkRegistry.pop_works tensor W).1)
  ∧ no_empty_lists (registry_ (WorkRegistry.unregister_completed_works env W).1)
  ∧ no_empty_lists (registry_ (c10d.register_work env tensor work W).1)
  ∧ no_empty_lists (registry_ (c10d.wait_tensor env tensor W).1).
Proof.
  intros Hinv. split_and!.
  - by apply no_empty_lists_register.
  - by apply no_empty_lists_pop.
  - apply no_empty_lists_sweep.
  - unfold c10d.register_work, bind,
      WorkRegistry.can_unregister_completed_works.
    destruct (USE_CUDA env && negb (USE_ROCM env));
      [destruct (cuda_is_available env && negb (CUDAGraph_is_capturing env))|];
      simpl; apply no_empty_lists_register; simpl;
      first [done | apply no_empty_lists_sweep].
  - unfold c10d.wait_tensor, bind.
    pose proof (no_empty_lists_pop tensor W Hinv) as Hpop.
    destruct (WorkRegistry.pop_works tensor W) as [W1 [works|e]] eqn:Epop;
      simpl in *; [|done].
    pose proof (wait_each_registry env works W1) as [Hreg _].
    destruct (c10d.wait_each env works W1) as [W2 [[]|e]]; simpl in *;
      by rewrite Hreg.
Qed.

Lemma registry_never_holds_empty_lists_witness :
  no_empty_lists
    (registry_ (c10d.register_work cpu_env sample_tensor (Some 4%positive)
                  sample_world).1)
  ∧ no_empty_lists
      (registry_ (c10d.wait_tensor cpu_env sample_tensor sample_world).1).
Proof.
  pose proof (registry_never_holds_empty_lists cpu_env sample_tensor
                (Some 4%positive) sample_world) as H.
  assert (Hinv : no_empty_lists (registry_ sample_world)).
  { apply (bool_decide_unpack _). vm_compute. exact I. }
  destruct (H Hinv) as (_ & _ & _ & Hreg & Hwait). by split.
Defined.

(** ** C2: sweeping completed works *)

Lemma uncompleted_defined_not_completed env work :
  WorkRegistry.uncompleted env work
  = defined work && negb (completed_and_defined env work).
Proof. by destruct work. Qed.

Lemma filter_uncompleted env (works : list WorkPtr) :
  filter (λ work, WorkRegistry.uncompleted env work) works
  = filter (λ work, defined work && negb (completed_and_defined env work))
      works.
Proof.
  apply list_filter_iff. intros work.
  by rewrite uncompleted_defined_not_completed.
Qed.

(** C2, as the code has it: [unregister_completed_works] keeps, in every
    entry, exactly the works that are defined and not completed, in their
    order, and so drops the undefined ones together with the completed ones;
    an entry left with no work is erased, any other stays under its key; the
    registry size before is the size after plus the number of works dropped.
    An entry {completed, completed, pending} is left with the pending work
    alone, an entry of completed works is erased. *)
Theorem unregister_completed_works_keeps_uncompleted (env : Env) (W : World) :
  let W' := (WorkRegistry.unregister_completed_works env W).1 in
  (WorkRegistry.unregister_completed_works env W).2 = Ok tt
  ∧ trace W' = trace W
  ∧ (∀ storage, registry_ W !! storage = None →
       registry_ W' !! storage = None)
  ∧ (∀ storage works, registry_ W !! storage = Some works →
       let kept :=
         filter (λ work, defined work && negb (completed_and_defined env work))
           works in
       registry_ W' !! storage = (if kept is [] then None else Some kept)
       ∧ kept `sublist_of` works)
  ∧ (WorkRegistry.get_work_registry_size W).2
    = Ok (WorkRegistry.total_size (registry_ W))
  ∧ WorkRegistry.total_size (registry_ W)
    = WorkRegistry.total_size (registry_ W') + swept env (registry_ W)
  ∧ (∀ storage a b c,
       registry_ W !! storage = Some [Some a; Some b; Some c] →
       isCompleted env a = true → isCompleted env b = true →
       isCompleted env c = false →
       registry_ W' !! storage = Some [Some c])
  ∧ (∀ storage (ids : list WorkId),
       registry_ W !! storage = Some (Some <$> ids) →
       Forall (λ w, isCompleted env w = true) ids →
       registry_ W' !! storage = None).
Proof.
  unfold WorkRegistry.unregister_completed_works,
    WorkRegistry.get_work_registry_size.
  cbn [fst snd set_registry registry_ trace]. split_and!; try done.
  - intros storage Hnone. by rewrite lookup_omap, Hnone.
  - intros storage works Hworks. rewrite lookup_omap, Hworks. simpl.
    rewrite <- filter_uncompleted. split; [|apply sublist_filter].
    unfold WorkRegistry.sweep_entry. by destruct (filter _ works).
  - apply total_size_sweep.
  - intros storage a b c Hworks Ha Hb Hc. rewrite lookup_omap, Hworks. simpl.
    unfold WorkRegistry.sweep_entry.
    rewrite !filter_cons, filter_nil. simpl. by rewrite Ha, Hb, Hc.
  - intros storage ids Hworks Hall. rewrite lookup_omap, Hworks. simpl.
    apply sweep_entry_None. clear Hworks.
    induction Hall as [|w ids Hw _ IH]; [done|].
    rewrite fmap_cons, filter_cons. simpl. by rewrite Hw.
Qed.

Lemma unregister_completed_works_keeps_uncompleted_witness :
  registry_ (WorkRegistry.unregister_completed_works cpu_env sample_world).1
    !! Some 9%positive = Some [Some 3%positive]
  ∧ WorkRegistry.total_size (registry_ sample_world) = 3
  ∧ WorkRegistry.total_size
      (registry_
         (WorkRegistry.unregister_completed_works cpu_env sample_world).1) = 1.
Proof.
  destruct (unregister_completed_works_keeps_uncompleted cpu_env sample_world)
    as (_ & _ & _ & _ & _ & _ & Hscenario & _).
  split; [|split; reflexivity].
  apply (Hscenario (Some 9%positive) 1%positive 2%positive 3%positive);
    reflexivity.
Defined.

(** C2 as stated fails: by the spec's words an undefined handle is not
    "completed and defined" and stays; the code drops it. *)
Lemma unregister_completed_works_drops_undefined :
  registry_ sample_world_undefined !! Some 9%positive
  = Some [None; Some 3%positive]
  ∧ sweep_entry_per_spec cpu_env [None; Some 3%positive]
    = Some [None; Some 3%positive]
  ∧ registry_
      (WorkRegistry.unregister_completed_works cpu_env sample_world_undefined).1
      !! Some 9%positive = Some [Some 3%positive]
  ∧ ¬ (∀ (env : Env) (W : World) storage works,
         registry_ W !! storage = Some works →
         registry_ (WorkRegistry.unregister_completed_works env W).1 !! storage
         = sweep_entry_per_spec env works).
Proof.
  split_and!; [reflexivity..|].
  intros Hclaim.
  specialize (Hclaim cpu_env sample_world_undefined (Some 9%positive)
                [None; Some 3%positive] eq_refl).
  vm_compute in Hclaim. discriminate Hclaim.
Qed.

(** ** C1: when the sweep is allowed *)

Lemma can_unregister_completed_works_value (env : Env) (W : World) :
  WorkRegistry.can_unregister_completed_works env W
  = (W, Ok (negb (USE_CUDA env && negb (USE_ROCM env)
                  && cuda_is_available env
                  && negb (CUDAGraph_is_capturing env)))).
Proof.
  unfold WorkRegistry.can_unregister_completed_works.
  by destruct (USE_CUDA env), (USE_ROCM env), (cuda_is_available env),
    (CUDAGraph_is_capturing env).
Qed.

(** C1 at the inputs where the code departs from it: in a CUDA build with the
    accelerator available, [can_unregister_completed_works] answers [false]
    while nothing is being captured and [true] during a capture, so the free
    function [register_work] keeps the completed works 1 and 2 of the sample
    registry when idle and sweeps them only during a capture. *)
Theorem can_unregister_completed_works_inverted (W : World) :
  WorkRegistry.can_unregister_completed_works cuda_idle_env W = (W, Ok false)
  ∧ WorkRegistry.can_unregister_completed_works cuda_capturing_env W
    = (W, Ok true)
  ∧ pending (c10d.register_work cuda_idle_env sample_tensor (Some 4%positive)
               sample_world).1 sample_tensor
    = [Some 1%positive; Some 2%positive; Some 3%positive; Some 4%positive]
  ∧ pending (c10d.register_work cuda_capturing_env sample_tensor
               (Some 4%positive) sample_world).1 sample_tensor
    = [Some 3%positive; Some 4%positive]
  ∧ pending (c10d.register_work cpu_env sample_tensor (Some 4%positive)
               sample_world).1 sample_tensor
    = [Some 3%positive; Some 4%positive].
Proof. split_and!; reflexivity. Qed.

(** ** C8: registering against a tensor without storage *)

Lemma lookup_sweep_is_Some (env : Env)
    (r : gmap (option positive) (list WorkPtr)) (k : option positive) :
  is_Some (omap (WorkRegistry.sweep_entry env) r !! k) → is_Some (r !! k).
Proof. rewrite lookup_omap. destruct (r !! k); [by eauto|]. by intros [? ?]. Qed.

Lemma total_size_sweep_le (env : Env)
    (r : gmap (option positive) (list WorkPtr)) :
  WorkRegistry.total_size (omap (WorkRegistry.sweep_entry env) r)
  ≤ WorkRegistry.total_size r.
Proof. rewrite (total_size_sweep env r). lia. Qed.

(** C8: for a tensor without storage, [WorkRegistry::register_work] returns
    without throwing and leaves the registry, hence its size, as it was; it
    warns the first time only.  The free function [register_work] returns
    without throwing too, adds no entry and does not increase the size (its
    sweep may remove completed works). *)
Theorem register_work_without_storage
    (env : Env) (tensor : Tensor) (work : WorkPtr) (W : World) :
  has_storage tensor = false →
  let Wm := (WorkRegistry.register_work tensor work W).1 in
  let Wf := (c10d.register_work env tensor work W).1 in
  (WorkRegistry.register_work tensor work W).2 = Ok tt
  ∧ registry_ Wm = registry_ W
  ∧ (WorkRegistry.get_work_registry_size Wm).2
    = (WorkRegistry.get_work_registry_size W).2
  ∧ trace Wm
    = trace W ++ (if warned_once_ W then []
                  else [EvWarnOnceNoStorage (tensor_name tensor)])
  ∧ warned_once_ Wm = true
  ∧ trace (WorkRegistry.register_work tensor work Wm).1 = trace Wm
  ∧ (c10d.register_work env tensor work W).2 = Ok tt
  ∧ (∀ storage, is_Some (registry_ Wf !! storage) →
                is_Some (registry_ W !! storage))
  ∧ WorkRegistry.total_size (registry_ Wf)
    ≤ WorkRegistry.total_size (registry_ W)
  ∧ trace Wf = trace Wm.
Proof.
  intros Hno.
  unfold c10d.register_work, bind. rewrite can_unregister_completed_works_value.
  unfold WorkRegistry.register_work, WorkRegistry.get_work_registry_size,
    WorkRegistry.unregister_completed_works, TORCH_WARN_ONCE, ret.
  rewrite Hno. cbn [negb].
  destruct (negb _); destruct (warned_once_ W) eqn:Hw;
    cbn [fst snd registry_ trace warned_once_ set_registry]; rewrite ?Hw;
    cbn [fst snd registry_ trace warned_once_ set_registry];
    rewrite ?app_nil_r;
    split_and!; try done;
    first [apply lookup_sweep_is_Some | apply total_size_sweep_le].
Qed.

Lemma register_work_without_storage_witness :
  (c10d.register_work cpu_env sample_meta_tensor (Some 4%positive)
     sample_world).2 = Ok tt
  ∧ WorkRegistry.total_size
      (registry_ (c10d.register_work cpu_env sample_meta_tensor
                    (Some 4%positive) sample_world).1)
    ≤ WorkRegistry.total_size (registry_ sample_world).
Proof.
  destruct (register_work_without_storage cpu_env sample_meta_tensor
              (Some 4%positive) sample_world eq_refl)
    as (_ & _ & _ & _ & _ & _ & Hok & _ & Hle & _).
  by split.
Defined.

(** ** C9: teardown *)

(** C9: [~WorkRegistry] returns without throwing; with [M >= 1] works left
    in the registry it emits one warning, carrying [M], and with none it
    emits nothing; it waits on no work (the trace gains no other event); and
    every held pointer is released, that is, left undefined. *)
Theorem destructor_warns_and_leaks (W : World) :
  let M := WorkRegistry.total_size (registry_ W) in
  let W' := (WorkRegistry.destructor W).1 in
  (WorkRegistry.destructor W).2 = Ok tt
  ∧ (1 ≤ M → trace W' = trace W ++ [EvWarnUnwaited M])
  ∧ (M = 0 → trace W' = trace W)
  ∧ (∀ storage,
       registry_ W' !! storage
       = (λ works : list WorkPtr, (λ _, None) <$> works)
           <$> registry_ W !! storage)
  ∧ map_Forall (λ _ works, Forall (λ work : WorkPtr, work = None) works)
      (registry_ W').
Proof.
  unfold WorkRegistry.destructor, bind, WorkRegistry.get_work_registry_size,
    WorkRegistry.release_all, TORCH_WARN, ret.
  cbv zeta.
  destruct (bool_decide (0 < WorkRegistry.total_size (registry_ W))) eqn:Hsz;
    cbn [fst snd registry_ trace emit set_registry].
  - apply bool_decide_eq_true in Hsz. split_and!; [done|done|lia| |].
    + intros storage. apply lookup_fmap.
    + intros storage works. rewrite lookup_fmap.
      destruct (registry_ W !! storage) as [ws|]; simpl; [|done].
      intros [= <-]. apply Forall_fmap, Forall_true. done.
  - apply bool_decide_eq_false in Hsz. split_and!; [done|lia|done| |].
    + intros storage. apply lookup_fmap.
    + intros storage works. rewrite lookup_fmap.
      destruct (registry_ W !! storage) as [ws|]; simpl; [|done].
      intros [= <-]. apply Forall_fmap, Forall_true. done.
Qed.

Lemma destructor_warns_and_leaks_witness :
  trace (WorkRegistry.destructor sample_world).1 = [EvWarnUnwaited 3]
  ∧ trace (WorkRegistry.destructor empty_world).1 = [].
Proof.
  split.
  - apply (proj1 (proj2 (destructor_warns_and_leaks sample_world))).
    vm_compute. lia.
  - apply (proj1 (proj2 (proj2 (destructor_warns_and_leaks empty_world)))).
    reflexivity.
Defined.

(** ** C4: waiting on a tensor *)

Lemma pending_register_work tensor work W :
  has_storage tensor = true →
  pending (WorkRegistry.register_work tensor work W).1 tensor
  = pending W tensor ++ [work].
Proof.
  intros Hst. unfold WorkRegistry.register_work, pending. rewrite Hst. simpl.
  destruct (registry_ W !! getWeakStorageImpl tensor) as [works|]; simpl;
    by rewrite lookup_insert_eq.
Qed.

Lemma pending_register_all tensor works W :
  has_storage tensor = true →
  pending (register_all tensor works W) tensor = pending W tensor ++ works.
Proof.
  intros Hst. revert W. induction works as [|work works IH]; intros W; simpl.
  - by rewrite app_nil_r.
  - unfold register_all in *. simpl. rewrite IH, pending_register_work by done.
    by rewrite <- app_assoc.
Qed.

Lemma trace_register_all tensor works W :
  has_storage tensor = true →
  trace (register_all tensor works W) = trace W.
Proof.
  intros Hst. revert W. induction works as [|work works IH]; intros W; [done|].
  unfold register_all in *. simpl. rewrite IH.
  unfold WorkRegistry.register_work. rewrite Hst. simpl.
  by destruct (registry_ W !! getWeakStorageImpl tensor).
Qed.

Lemma pop_works_pending tensor W :
  WorkRegistry.pop_works tensor W
  = (set_registry (delete (getWeakStorageImpl tensor) (registry_ W)) W,
     Ok (pending W tensor)).
Proof.
  unfold WorkRegistry.pop_works, pending.
  destruct (registry_ W !! getWeakStorageImpl tensor) as [works|] eqn:E;
    simpl; [done|].
  rewrite delete_id by done. by destruct W.
Qed.

(** C4: when the works registered against the storage of a tensor are the [K]
    defined works [ids], in the order of registration, and none of their
    waits fails, [wait_tensor] removes the whole list under that storage,
    calls [wait] on each of the [K] works once, in that order, and returns
    the tensor; a second [wait_tensor] finds nothing, waits on nothing and
    returns the tensor again.  With [K = 0] this is the tensor nothing is
    registered for.  Registering works one after the other against a tensor
    with storage appends them to that list. *)
Theorem wait_tensor_drains
    (env : Env) (tensor : Tensor) (W : World) (ids : list WorkId) :
  pending W tensor = Some <$> ids →
  Forall (λ w, wait_fails env w = false) ids →
  let W1 := (c10d.wait_tensor env tensor W).1 in
  (c10d.wait_tensor env tensor W).2 = Ok tensor
  ∧ registry_ W1 = delete (getWeakStorageImpl tensor) (registry_ W)
  ∧ pending W1 tensor = []
  ∧ trace W1 = trace W ++ (EvWait <$> ids)
  ∧ length (EvWait <$> ids) = length (pending W tensor)
  ∧ c10d.wait_tensor env tensor W1 = (W1, Ok tensor)
  ∧ (∀ W0 works, has_storage tensor = true →
       pending (register_all tensor works W0) tensor
       = pending W0 tensor ++ works
       ∧ trace (register_all tensor works W0) = trace W0).
Proof.
  intros Hpending Hok.
  assert (Hrun : c10d.wait_tensor env tensor W
                 = (mkWorld (delete (getWeakStorageImpl tensor) (registry_ W))
                      (warned_once_ W) (trace W ++ (EvWait <$> ids)),
                    Ok tensor)).
  { unfold c10d.wait_tensor, bind. rewrite pop_works_pending, Hpending.
    by rewrite wait_each_ok. }
  rewrite Hrun. cbn [fst snd registry_ trace]. split_and!; try done.
  - unfold pending. cbn [registry_]. by rewrite lookup_delete_eq.
  - by rewrite Hpending, !length_fmap.
  - unfold c10d.wait_tensor, bind. rewrite pop_works_pending.
    unfold pending. cbn [registry_ set_registry warned_once_ trace].
    rewrite lookup_delete_eq. simpl. unfold ret.
    by rewrite delete_delete_eq.
  - intros W0 works Hst. split.
    + by apply pending_register_all.
    + by apply trace_register_all.
Qed.

Lemma wait_tensor_drains_witness :
  (c10d.wait_tensor cpu_env sample_tensor sample_world).2 = Ok sample_tensor
  ∧ trace (c10d.wait_tensor cpu_env sample_tensor sample_world).1
    = [EvWait 1%positive; EvWait 2%positive; EvWait 3%positive]
  ∧ pending (c10d.wait_tensor cpu_env sample_tensor sample_world).1
      sample_tensor = [].
Proof.
  destruct (wait_tensor_drains cpu_env sample_tensor sample_world
              [1%positive; 2%positive; 3%positive] eq_refl)
    as (Hret & _ & Hdrained & Htrace & _).
  { repeat constructor. }
  by split_and!.
Defined.

(** Two works registered on one tensor before either completes are both
    waited on, in the order they were issued. *)
Example wait_tensor_two_pending :
  trace
    (c10d.wait_tensor cpu_env sample_tensor
       (register_all sample_tensor [Some 3%positive; Some 5%positive]
          empty_world)).1
  = [EvWait 3%positive; EvWait 5%positive].
Proof. reflexivity. Qed.

(** A failing wait propagates, after the list has left the registry. *)
Example wait_tensor_failing_wait :
  let env := mkEnv false false false false (λ _, false)
               (λ w, bool_decide (w = 1%positive)) in
  let W1 := (c10d.wait_tensor env sample_tensor sample_world).1 in
  (c10d.wait_tensor env sample_tensor sample_world).2
  = Throw (WorkWaitFailed 1%positive)
  ∧ trace W1 = [EvWait 1%positive]
  ∧ pending W1 sample_tensor = [].
Proof. split_and!; reflexivity. Qed.


(** * Further properties of the code *)

(** ** Operation kinds *)

(** X1: [opTypeToString] gives distinct names to distinct operation kinds,
    and it fails its internal assertion exactly on a value that is none of
    the enumerators. *)
Theorem opTypeToString_injective (a b : OpType) (name : string) :
  opTypeToString a = Returns name →
  opTypeToString b = Returns name →
  a = b
  ∧ (∀ c, (∃ msg, opTypeToString c = InternalAssertFailed msg)
          ↔ ∃ raw, c = OpType_invalid raw).
Proof.
  intros Ha Hb. split.
  - destruct a; simpl in Ha; try discriminate Ha;
      injection Ha as <-; destruct b; simpl in Hb; done.
  - intros c. split.
    + intros [msg Hc]. destruct c; simpl in Hc; try discriminate Hc. by eauto.
    + intros [raw ->]. by eexists.
Qed.

Lemma opTypeToString_injective_witness :
  SEND = SEND
  ∧ (∀ c, (∃ msg, opTypeToString c = InternalAssertFailed msg)
          ↔ ∃ raw, c = OpType_invalid raw).
Proof. apply (opTypeToString_injective SEND SEND "SEND"); reflexivity. Defined.

(** X2: [isP2POp] holds exactly of the kinds named SEND, RECV and
    RECVANYSOURCE when [batchP2P] is off, and of no kind when it is on. *)
Theorem isP2POp_names (opType : OpType) (batchP2P : bool) :
  isP2POp opType batchP2P = true
  ↔ batchP2P = false
    ∧ (opTypeToString opType = Returns "SEND"
       ∨ opTypeToString opType = Returns "RECV"
       ∨ opTypeToString opType = Returns "RECVANYSOURCE").
Proof.
  unfold isP2POp. destruct batchP2P.
  - split; [done|]. by intros [? _].
  - destruct opType; simpl; split; try done;
      try (intros _; split; [done|]; by eauto);
      intros [_ [H|[H|H]]]; discriminate H.
Qed.

(** ** Backend resolution, continued *)

Lemma getBackend_Ok_inv deviceType pg pg' backend :
  cache_entry_resolved pg deviceType →
  getBackend deviceType pg = (pg', Ok backend) →
  ∃ backendType,
    deviceTypeToBackendType_ pg !! deviceType = Some backendType
    ∧ backendTypeToBackend_ pg !! backendType = Some backend.
Proof.
  intros Hres. unfold getBackend.
  destruct (deviceTypeToBackend_ pg !! deviceType) as [b|] eqn:Hc.
  - intros [= <- <-]. by apply Hres.
  - destruct (deviceTypeToBackendType_ pg !! deviceType) as [bt|]; [|done].
    destruct (backendTypeToBackend_ pg !! bt) as [b|] eqn:Hb; [|done].
    intros [= <- <-]. by exists bt.
Qed.

Lemma getBackend_keeps_maps deviceType pg :
  deviceTypeToBackendType_ (getBackend deviceType pg).1
  = deviceTypeToBackendType_ pg
  ∧ backendTypeToBackend_ (getBackend deviceType pg).1
    = backendTypeToBackend_ pg.
Proof.
  unfold getBackend.
  destruct (deviceTypeToBackend_ pg !! deviceType); [done|].
  destruct (deviceTypeToBackendType_ pg !! deviceType) as [bt|]; [|done].
  by destruct (backendTypeToBackend_ pg !! bt).
Qed.

Lemma getBackend_Ok_cached deviceType pg pg' backend :
  getBackend deviceType pg = (pg', Ok backend) →
  deviceTypeToBackend_ pg' !! deviceType = Some backend.
Proof.
  unfold getBackend.
  destruct (deviceTypeToBackend_ pg !! deviceType) as [b|] eqn:Hc.
  - by intros [= <- <-].
  - destruct (deviceTypeToBackendType_ pg !! deviceType) as [bt|]; [|done].
    destruct (backendTypeToBackend_ pg !! bt) as [b|]; [|done].
    intros [= <- <-]. simpl. apply lookup_insert_eq.
Qed.

Lemma getBackend_cache_grows deviceType pg :
  deviceTypeToBackend_ pg ⊆ deviceTypeToBackend_ (getBackend deviceType pg).1.
Proof.
  unfold getBackend.
  destruct (deviceTypeToBackend_ pg !! deviceType) as [b|] eqn:Hc; [done|].
  destruct (deviceTypeToBackendType_ pg !! deviceType) as [bt|]; [|done].
  destruct (backendTypeToBackend_ pg !! bt) as [b|]; [|done].
  simpl. by apply insert_subseteq.
Qed.

(** X3: whatever its outcome, [getBackend] changes nothing of the group but
    the cache entry of the device type asked for: the group after the call
    is the group before with its device-type cache replaced, and that cache
    agrees with the old one on every other device type and only grows; a
    call that throws leaves the group exactly as it was. *)
Theorem getBackend_frame (deviceType : DeviceType) (pg : ProcessGroup) :
  let pg' := (getBackend deviceType pg).1 in
  deviceTypeToBackendType_ pg' = deviceTypeToBackendType_ pg
  ∧ backendTypeToBackend_ pg' = backendTypeToBackend_ pg
  ∧ pg_desc_ pg' = pg_desc_ pg
  ∧ store_ pg' = store_ pg ∧ rank_ pg' = rank_ pg ∧ size_ pg' = size_ pg
  ∧ (∀ d, d ≠ deviceType →
       deviceTypeToBackend_ pg' !! d = deviceTypeToBackend_ pg !! d)
  ∧ deviceTypeToBackend_ pg ⊆ deviceTypeToBackend_ pg'
  ∧ (∀ e, (getBackend deviceType pg).2 = Throw e → pg' = pg)
  ∧ backendType_ pg' = backendType_ pg
  ∧ pg' = set_deviceTypeToBackend (deviceTypeToBackend_ pg') pg.
Proof.
  assert (Heta : pg = set_deviceTypeToBackend (deviceTypeToBackend_ pg) pg)
    by (by destruct pg).
  unfold getBackend.
  destruct (deviceTypeToBackend_ pg !! deviceType) as [b|] eqn:Hc;
    [by split_and!|].
  destruct (deviceTypeToBackendType_ pg !! deviceType) as [bt|];
    [|by split_and!].
  destruct (backendTypeToBackend_ pg !! bt) as [b|]; [|by split_and!].
  simpl. split_and!; try done.
  - intros d Hd. by apply lookup_insert_ne.
  - by apply insert_subseteq.
Qed.

(** X4: [getBackend] is idempotent: a second call for the same device type
    gives the outcome of the first and leaves the group as the first call
    left it, whether the first call succeeded or threw. *)
Theorem getBackend_idempotent (deviceType : DeviceType) (pg : ProcessGroup) :
  getBackend deviceType (getBackend deviceType pg).1
  = getBackend deviceType pg.
Proof.
  unfold getBackend at 2 3.
  destruct (deviceTypeToBackend_ pg !! deviceType) as [b|] eqn:Hc.
  - simpl. by apply getBackend_hit.
  - destruct (deviceTypeToBackendType_ pg !! deviceType) as [bt|] eqn:Hbt.
    + destruct (backendTypeToBackend_ pg !! bt) as [b|] eqn:Hb; simpl.
      * apply getBackend_hit. simpl. apply lookup_insert_eq.
      * unfold getBackend. by rewrite Hc, Hbt, Hb.
    + simpl. unfold getBackend. by rewrite Hc, Hbt.
Qed.

(** X5: device types configured for one backend type share one backend:
    resolved one after the other in a group whose cache came from
    resolution, they return the same instance. *)
Theorem getBackend_shared_instance
    (d1 d2 : DeviceType) (backendType : BackendType)
    (pg pg1 pg2 : ProcessGroup) (b1 b2 : BackendPtr) :
  cache_resolved pg →
  deviceTypeToBackendType_ pg !! d1 = Some backendType →
  deviceTypeToBackendType_ pg !! d2 = Some backendType →
  getBackend d1 pg = (pg1, Ok b1) →
  getBackend d2 pg1 = (pg2, Ok b2) →
  b1 = b2
  ∧ deviceTypeToBackend_ pg2 !! d1 = Some b1
  ∧ deviceTypeToBackend_ pg2 !! d2 = Some b1.
Proof.
  intros Hinv Hc1 Hc2 H1 H2.
  pose proof (cache_resolved_getBackend d1 pg Hinv) as Hinv1.
  pose proof (getBackend_keeps_maps d1 pg) as [Hcfg Hbts].
  rewrite H1 in Hinv1, Hcfg, Hbts. simpl in *.
  destruct (getBackend_Ok_inv d1 pg pg1 b1 (Hinv d1) H1) as (bt1 & ? & Hb1).
  destruct (getBackend_Ok_inv d2 pg1 pg2 b2 (Hinv1 d2) H2) as (bt2 & ? & Hb2).
  assert (b1 = b2) as <- by congruence.
  pose proof (getBackend_Ok_cached d1 pg pg1 b1 H1) as Hcached1.
  pose proof (getBackend_Ok_cached d2 pg1 pg2 b1 H2) as Hcached2.
  split_and!; [done| |done].
  pose proof (getBackend_cache_grows d2 pg1) as Hsub.
  rewrite H2 in Hsub. simpl in Hsub.
  by apply (lookup_weaken _ _ _ _ Hcached1).
Qed.

Lemma getBackend_shared_instance_witness :
  7%positive = 7%positive
  ∧ deviceTypeToBackend_
      (getBackend 1%N (getBackend 0%N sample_pg_shared).1).1 !! 0%N
    = Some 7%positive
  ∧ deviceTypeToBackend_
      (getBackend 1%N (getBackend 0%N sample_pg_shared).1).1 !! 1%N
    = Some 7%positive.
Proof.
  apply (getBackend_shared_instance 0%N 1%N 1%N sample_pg_shared
           (getBackend 0%N sample_pg_shared).1
           (getBackend 1%N (getBackend 0%N sample_pg_shared).1).1).
  - intros d b Hb. vm_compute in Hb. discriminate Hb.
  - reflexivity.
  - reflexivity.
  - reflexivity.
  - reflexivity.
Defined.

(** X6: after [release_resources] no device type resolves: [getBackend]
    throws for every device type, with the backend type still configured
    for it when there is one; the configuration, rank and size survive, the
    store and both indices are gone, and releasing again changes nothing. *)
Theorem getBackend_after_release_resources
    (deviceType : DeviceType) (pg : ProcessGroup) :
  let released := release_resources pg in
  getBackend deviceType released
  = (released,
     Throw (match deviceTypeToBackendType_ pg !! deviceType with
            | Some backendType =>
              CouldNotRetrieveBackend backendType deviceType
            | None => NoBackendTypeForDevice deviceType
            end))
  ∧ (∀ b, ¬ attached released b)
  ∧ store_ released = None
  ∧ deviceTypeToBackendType_ released = deviceTypeToBackendType_ pg
  ∧ rank_ released = rank_ pg ∧ size_ released = size_ pg
  ∧ release_resources released = released.
Proof.
  simpl. split_and!; try done.
  - unfold getBackend. simpl. rewrite lookup_empty.
    destruct (deviceTypeToBackendType_ pg !! deviceType) as [bt|]; [|done].
    by rewrite lookup_empty.
  - intros b [[bt Hbt]|[d Hd]]; simpl in *; by rewrite lookup_empty in *.
Qed.

(** ** Broadcast, continued *)

Lemma cached_or_not (pg : ProcessGroup) (b : BackendPtr) :
  cached pg b ∨ ¬ cached pg b.
Proof.
  destruct (decide (map_Exists (λ _ v, v = b) (deviceTypeToBackend_ pg)))
    as [Hex|Hno].
  - left. destruct Hex as (d & v & Hd & ->). by exists d.
  - right. intros [d Hd]. apply Hno. by exists d, b.
Qed.

(** The loop leaves a backend with [f] of its old value or with its old
    value. *)
Lemma for_each_backend_cases (f : Backend → Backend)
    (pg : ProcessGroup) (heap : BackendHeap) (p : BackendPtr) :
  (∀ b, f (f b) = f b) →
  for_each_backend f pg heap p = f (heap p)
  ∨ for_each_backend f pg heap p = heap p.
Proof.
  intros Hidem.
  destruct (for_each_backend_spec f pg heap Hidem p) as [Hin Hout].
  destruct (cached_or_not pg p); [left|right]; auto.
Qed.

(** X7: the name written by [setGroupName] is the name [getGroupName] reads
    back, as soon as some device type has a backend cached. *)
Theorem getGroupName_setGroupName
    (pg : ProcessGroup) (heap : BackendHeap) (name : string) :
  deviceTypeToBackend_ pg ≠ ∅ →
  getGroupName pg (setGroupName name pg heap) = Ok name.
Proof.
  intros Hne. destruct (begin_nonempty _ Hne) as (d & b & Hb).
  unfold getGroupName. rewrite Hb.
  assert (Hc : cached pg b) by (exists d; by apply begin_Some).
  unfold setGroupName.
  by rewrite (proj1 (for_each_backend_spec (Backend_setGroupUid name) pg heap
                       (λ _, eq_refl) b) Hc).
Qed.

Lemma getGroupName_setGroupName_witness :
  getGroupName sample_pg_cached (setGroupName "g" sample_pg_cached sample_heap)
  = Ok "g".
Proof.
  apply getGroupName_setGroupName. intros Hempty.
  assert (Hl : deviceTypeToBackend_ sample_pg_cached !! 0%N = Some 7%positive)
    by reflexivity.
  rewrite Hempty in Hl. discriminate Hl.
Defined.

(** X8: each setter writes its own field only: [setGroupName] changes no
    description and no timing flag, [setGroupDesc] no name and no flag (so
    [getGroupName] answers as before), [enableCollectivesTiming] no name and
    no description, and it never switches a flag off. *)
Theorem setters_write_one_field
    (pg : ProcessGroup) (heap : BackendHeap) (name desc : string)
    (b : BackendPtr) :
  backend_pg_desc_ (setGroupName name pg heap b) = backend_pg_desc_ (heap b)
  ∧ timing_enabled_ (setGroupName name pg heap b) = timing_enabled_ (heap b)
  ∧ pg_uid_ ((setGroupDesc desc pg heap).2 b) = pg_uid_ (heap b)
  ∧ timing_enabled_ ((setGroupDesc desc pg heap).2 b)
    = timing_enabled_ (heap b)
  ∧ pg_uid_ (enableCollectivesTiming pg heap b) = pg_uid_ (heap b)
  ∧ backend_pg_desc_ (enableCollectivesTiming pg heap b)
    = backend_pg_desc_ (heap b)
  ∧ (timing_enabled_ (heap b) = true →
     timing_enabled_ (enableCollectivesTiming pg heap b) = true)
  ∧ getGroupName (setGroupDesc desc pg heap).1 (setGroupDesc desc pg heap).2
    = getGroupName pg heap.
Proof.
  unfold setGroupName, setGroupDesc, enableCollectivesTiming.
  cbn [fst snd].
  pose proof (for_each_backend_cases (Backend_setGroupUid name) pg heap)
    as Hname.
  pose proof (for_each_backend_cases (Backend_setGroupDesc desc) pg heap)
    as Hdesc.
  pose proof (for_each_backend_cases Backend_enableCollectivesTiming pg heap)
    as Htiming.
  split_and!.
  - by destruct (Hname b (λ _, eq_refl)) as [-> | ->].
  - by destruct (Hname b (λ _, eq_refl)) as [-> | ->].
  - by destruct (Hdesc b (λ _, eq_refl)) as [-> | ->].
  - by destruct (Hdesc b (λ _, eq_refl)) as [-> | ->].
  - by destruct (Htiming b (λ _, eq_refl)) as [-> | ->].
  - by destruct (Htiming b (λ _, eq_refl)) as [-> | ->].
  - by destruct (Htiming b (λ _, eq_refl)) as [-> | ->].
  - unfold getGroupName. simpl.
    destruct (begin (deviceTypeToBackend_ pg)) as [[d p]|]; [|done].
    by destruct (Hdesc p (λ _, eq_refl)) as [-> | ->].
Qed.

Lemma setters_write_one_field_witness :
  timing_enabled_
    (enableCollectivesTiming sample_pg
       (enableCollectivesTiming sample_pg_cached sample_heap) 7%positive)
  = true.
Proof.
  apply (setters_write_one_field sample_pg
           (enableCollectivesTiming sample_pg_cached sample_heap) "" ""
           7%positive).
  reflexivity.
Defined.

(** X9: the last name set is the one that stays: [setGroupName] after
    [setGroupName] is the second call alone, on every backend; and
    [setGroupName] and [setGroupDesc] can be called in either order. *)
Theorem setGroupName_overwrites
    (pg : ProcessGroup) (heap : BackendHeap) (n1 n2 desc : string)
    (b : BackendPtr) :
  setGroupName n2 pg (setGroupName n1 pg heap) b = setGroupName n2 pg heap b
  ∧ setGroupName n1 pg (setGroupDesc desc pg heap).2 b
    = (setGroupDesc desc pg (setGroupName n1 pg heap)).2 b.
Proof.
  unfold setGroupName, setGroupDesc. cbn [snd].
  pose proof (λ f h H, for_each_backend_spec f pg h H b) as Hspec.
  destruct (cached_or_not pg b) as [Hc|Hn].
  - split.
    + rewrite !(proj1 (Hspec (Backend_setGroupUid n2) _ (λ _, eq_refl)) Hc).
      rewrite !(proj1 (Hspec (Backend_setGroupUid n1) _ (λ _, eq_refl)) Hc).
      done.
    + rewrite !(proj1 (Hspec (Backend_setGroupUid n1) _ (λ _, eq_refl)) Hc).
      rewrite !(proj1 (Hspec (Backend_setGroupDesc desc) _ (λ _, eq_refl)) Hc).
      rewrite !(proj1 (Hspec (Backend_setGroupUid n1) _ (λ _, eq_refl)) Hc).
      done.
  - split.
    + rewrite !(proj2 (Hspec (Backend_setGroupUid n2) _ (λ _, eq_refl)) Hn).
      rewrite !(proj2 (Hspec (Backend_setGroupUid n1) _ (λ _, eq_refl)) Hn).
      done.
    + rewrite !(proj2 (Hspec (Backend_setGroupUid n1) _ (λ _, eq_refl)) Hn).
      rewrite !(proj2 (Hspec (Backend_setGroupDesc desc) _ (λ _, eq_refl)) Hn).
      rewrite ?(proj2 (Hspec (Backend_setGroupUid n1) _ (λ _, eq_refl)) Hn).
      done.
Qed.

(** X10: a group fresh from either constructor has no name, resolves no
    device type and has the empty description; the setters reach no
    backend; rank and size are the ones given. *)
Theorem constructed_group_is_bare
    (store : option positive) (rank size : Z) (heap : BackendHeap)
    (deviceType : DeviceType) (name : string) (b : BackendPtr) :
  let pg := ProcessGroup_with_store store rank size in
  let pg0 := ProcessGroup_without_store rank size in
  getGroupName pg heap = Throw GroupNameNotSet
  ∧ getGroupName pg0 heap = Throw GroupNameNotSet
  ∧ getBackend deviceType pg = (pg, Throw (NoBackendTypeForDevice deviceType))
  ∧ getBackend deviceType pg0
    = (pg0, Throw (NoBackendTypeForDevice deviceType))
  ∧ getGroupDesc pg = "" ∧ getGroupDesc pg0 = ""
  ∧ setGroupName name pg heap b = heap b
  ∧ (setGroupDesc name pg heap).2 b = heap b
  ∧ enableCollectivesTiming pg heap b = heap b
  ∧ cache_resolved pg ∧ cache_resolved pg0
  ∧ rank_ pg = rank ∧ size_ pg = size ∧ store_ pg = store
  ∧ rank_ pg0 = rank ∧ size_ pg0 = size ∧ store_ pg0 = None.
Proof.
  simpl. split_and!; done.
Qed.

(** ** The registry, continued *)

Lemma total_size_pos_of_entry
    (r : gmap (option positive) (list WorkPtr)) k works :
  r !! k = Some works → works ≠ [] → 0 < WorkRegistry.total_size r.
Proof.
  intros Hk Hne. rewrite (total_size_delete r k works Hk).
  destruct works; [done|]. simpl. lia.
Qed.

(** X11: in a registry without empty lists the size is zero exactly when
    the registry has no entry, so the destructor stays silent exactly when no
    entry is left. *)
Theorem registry_size_zero_iff_empty (W : World) :
  no_empty_lists (registry_ W) →
  ((WorkRegistry.get_work_registry_size W).2 = Ok 0 ↔ registry_ W = ∅)
  ∧ (trace (WorkRegistry.destructor W).1 = trace W ↔ registry_ W = ∅).
Proof.
  intros Hinv.
  assert (Hzero : WorkRegistry.total_size (registry_ W) = 0
                  ↔ registry_ W = ∅).
  { split.
    - intros Hsz.
      destruct (map_choose_or_empty (registry_ W)) as [(k & ws & Hk)|]; [|done].
      pose proof (total_size_pos_of_entry _ k ws Hk (Hinv k ws Hk)). lia.
    - intros ->. apply total_size_empty. }
  split.
  - unfold WorkRegistry.get_work_registry_size. simpl. rewrite <- Hzero.
    split; [by intros [= ->]|by intros ->].
  - rewrite <- Hzero.
    unfold WorkRegistry.destructor, bind, WorkRegistry.get_work_registry_size,
      WorkRegistry.release_all, TORCH_WARN, ret.
    destruct (bool_decide (0 < WorkRegistry.total_size (registry_ W)))
      eqn:Hsz; cbn [fst snd trace emit set_registry].
    + apply bool_decide_eq_true in Hsz. split; [|lia].
      intros Heq. apply (f_equal length) in Heq.
      rewrite length_app in Heq. simpl in Heq. lia.
    + apply bool_decide_eq_false in Hsz. split; [lia|done].
Qed.

Lemma registry_size_zero_iff_empty_witness :
  ((WorkRegistry.get_work_registry_size empty_world).2 = Ok 0
   ↔ registry_ empty_world = ∅)
  ∧ (trace (WorkRegistry.destructor empty_world).1 = trace empty_world
     ↔ registry_ empty_world = ∅).
Proof.
  apply registry_size_zero_iff_empty.
  apply (bool_decide_unpack _). vm_compute. exact I.
Defined.

(** X12: [WorkRegistry::register_work] on a tensor with storage returns
    without throwing or warning, appends the work at the end of the list of
    that storage, leaves every other entry alone and makes the size one
    larger; [K] registrations make it [K] larger. *)
Theorem register_work_with_storage
    (tensor : Tensor) (work : WorkPtr) (W : World) (works : list WorkPtr) :
  has_storage tensor = true →
  let W' := (WorkRegistry.register_work tensor work W).1 in
  (WorkRegistry.register_work tensor work W).2 = Ok tt
  ∧ pending W' tensor = pending W tensor ++ [work]
  ∧ (∀ storage, storage ≠ getWeakStorageImpl tensor →
       registry_ W' !! storage = registry_ W !! storage)
  ∧ WorkRegistry.total_size (registry_ W')
    = WorkRegistry.total_size (registry_ W) + 1
  ∧ trace W' = trace W ∧ warned_once_ W' = warned_once_ W
  ∧ WorkRegistry.total_size (registry_ (register_all tensor works W))
    = WorkRegistry.total_size (registry_ W) + length works.
Proof.
  intros Hst.
  assert (Hone : ∀ V w,
            WorkRegistry.total_size
              (registry_ (WorkRegistry.register_work tensor w V).1)
            = WorkRegistry.total_size (registry_ V) + 1).
  { intros V w. unfold WorkRegistry.register_work. rewrite Hst. simpl.
    destruct (registry_ V !! getWeakStorageImpl tensor) as [ws|] eqn:E; simpl.
    - rewrite total_size_insert, (total_size_delete _ _ _ E), length_app.
      simpl. lia.
    - by rewrite total_size_insert_fresh. }
  split_and!.
  - unfold WorkRegistry.register_work. rewrite Hst. simpl.
    by destruct (registry_ W !! getWeakStorageImpl tensor).
  - by apply pending_register_work.
  - intros storage Hne. unfold WorkRegistry.register_work. rewrite Hst. simpl.
    destruct (registry_ W !! getWeakStorageImpl tensor); simpl;
      by rewrite lookup_insert_ne.
  - apply Hone.
  - unfold WorkRegistry.register_work. rewrite Hst. simpl.
    by destruct (registry_ W !! getWeakStorageImpl tensor).
  - unfold WorkRegistry.register_work. rewrite Hst. simpl.
    by destruct (registry_ W !! getWeakStorageImpl tensor).
  - clear work. revert W. induction works as [|w ws IH]; intros W; simpl.
    + lia.
    + unfold register_all in *. simpl. rewrite IH, Hone. lia.
Qed.

Lemma register_work_with_storage_witness :
  pending (WorkRegistry.register_work sample_tensor (Some 4%positive)
             sample_world).1 sample_tensor
  = pending sample_world sample_tensor ++ [Some 4%positive].
Proof.
  apply (register_work_with_storage sample_tensor (Some 4%positive)
           sample_world []).
  reflexivity.
Defined.

(** X13: [pop_works] never throws and emits nothing; it hands out the whole
    list of the tensor's storage, the size drops by the length of that list,
    every other entry stays; and popping right after the first registration
    for a storage gives back that one work and the registry as it was. *)
Theorem pop_works_accounting (tensor : Tensor) (work : WorkPtr) (W : World) :
  let W' := (WorkRegistry.pop_works tensor W).1 in
  (WorkRegistry.pop_works tensor W).2 = Ok (pending W tensor)
  ∧ pending W' tensor = []
  ∧ (∀ storage, storage ≠ getWeakStorageImpl tensor →
       registry_ W' !! storage = registry_ W !! storage)
  ∧ WorkRegistry.total_size (registry_ W)
    = WorkRegistry.total_size (registry_ W') + length (pending W tensor)
  ∧ trace W' = trace W
  ∧ (has_storage tensor = true → pending W tensor = [] →
     no_empty_lists (registry_ W) →
     WorkRegistry.pop_works tensor
       (WorkRegistry.register_work tensor work W).1
     = (W, Ok [work])).
Proof.
  rewrite pop_works_pending. cbn [fst snd registry_ set_registry trace].
  split_and!; try done.
  - unfold pending. cbn [registry_ set_registry]. by rewrite lookup_delete_eq.
  - intros storage Hne. by rewrite lookup_delete_ne.
  - unfold pending.
    destruct (registry_ W !! getWeakStorageImpl tensor) as [ws|] eqn:E; simpl.
    + by apply total_size_delete.
    + rewrite delete_id by done. lia.
  - intros Hst Hnone Hinv.
    assert (E : registry_ W !! getWeakStorageImpl tensor = None).
    { unfold pending in Hnone.
      destruct (registry_ W !! getWeakStorageImpl tensor) as [ws|] eqn:E;
        [|done].
      simpl in Hnone. subst ws. by destruct (Hinv _ _ E). }
    rewrite pop_works_pending, pending_register_work, Hnone by done.
    unfold WorkRegistry.register_work. rewrite Hst. cbn [negb].
    cbv zeta. rewrite E. unfold set_registry.
    cbn [fst registry_ trace warned_once_].
    rewrite delete_insert_id by done.
    by destruct W.
Qed.

Lemma pop_works_accounting_witness :
  WorkRegistry.pop_works sample_tensor
    (WorkRegistry.register_work sample_tensor (Some 4%positive)
       empty_world).1
  = (empty_world, Ok [Some 4%positive]).
Proof.
  apply (pop_works_accounting sample_tensor (Some 4%positive) empty_world).
  - reflexivity.
  - reflexivity.
  - apply (bool_decide_unpack _). vm_compute. exact I.
Defined.

(** ** The sweep, continued *)

Lemma filter_uncompleted_idem env (works : list WorkPtr) :
  filter (λ work, WorkRegistry.uncompleted env work)
    (filter (λ work, WorkRegistry.uncompleted env work) works)
  = filter (λ work, WorkRegistry.uncompleted env work) works.
Proof.
  induction works as [|w works IH]; [done|].
  rewrite filter_cons. case_decide as Hw; [|done].
  rewrite filter_cons. case_decide; [|done]. by rewrite IH.
Qed.

Lemma filter_uncompleted_all env (works : list WorkPtr) :
  Forall (λ work, WorkRegistry.uncompleted env work = true) works →
  filter (λ work, WorkRegistry.uncompleted env work) works = works.
Proof.
  induction 1 as [|w works Hw _ IH]; [done|].
  rewrite filter_cons, IH. case_decide as Hd; [done|].
  destruct Hd. by rewrite Hw.
Qed.

Lemma Forall_uncompleted_filter env (works : list WorkPtr) :
  Forall (λ work, WorkRegistry.uncompleted env work = true)
    (filter (λ work, WorkRegistry.uncompleted env work) works).
Proof.
  apply Forall_forall. intros w Hw. apply list_elem_of_filter in Hw as [Hw _].
  by apply Is_true_eq_true.
Qed.

Lemma pending_sweep env W tensor :
  pending (WorkRegistry.unregister_completed_works env W).1 tensor
  = filter (λ work, WorkRegistry.uncompleted env work) (pending W tensor).
Proof.
  unfold pending, WorkRegistry.unregister_completed_works.
  cbn [fst registry_ set_registry]. rewrite lookup_omap.
  destruct (registry_ W !! getWeakStorageImpl tensor) as [ws|]; simpl;
    [|done].
  unfold WorkRegistry.sweep_entry. by destruct (filter _ ws).
Qed.

(** X14: sweeping is idempotent, and what a sweep leaves holds only defined
    works that have not completed; a registry of such works without empty
    lists is left exactly as it is. *)
Theorem unregister_completed_works_idempotent (env : Env) (W : World) :
  let W' := (WorkRegistry.unregister_completed_works env W).1 in
  WorkRegistry.unregister_completed_works env W' = (W', Ok tt)
  ∧ all_uncompleted env (registry_ W')
  ∧ (all_uncompleted env (registry_ W) → no_empty_lists (registry_ W) →
     WorkRegistry.unregister_completed_works env W = (W, Ok tt)).
Proof.
  unfold WorkRegistry.unregister_completed_works.
  cbn [fst registry_ set_registry trace warned_once_]. split_and!.
  - unfold set_registry. cbn [registry_ trace warned_once_]. do 2 f_equal.
    apply map_eq. intros k. rewrite !lookup_omap.
    destruct (registry_ W !! k) as [ws|]; simpl; [|done].
    destruct (WorkRegistry.sweep_entry env ws) as [kept|] eqn:Hs; simpl;
      [|done].
    apply sweep_entry_Some in Hs as [-> Hne]. apply sweep_entry_Some.
    by rewrite filter_uncompleted_idem.
  - intros k kept. rewrite lookup_omap.
    destruct (registry_ W !! k) as [ws|]; simpl; [|done].
    intros Hs. apply sweep_entry_Some in Hs as [-> _].
    apply Forall_uncompleted_filter.
  - intros Hall Hinv. unfold set_registry.
    assert (Hid : omap (WorkRegistry.sweep_entry env) (registry_ W)
                  = registry_ W).
    { apply map_eq. intros k. rewrite lookup_omap.
      destruct (registry_ W !! k) as [ws|] eqn:E; simpl; [|done].
      apply sweep_entry_Some. rewrite filter_uncompleted_all by eauto.
      split; [done|]. by apply (Hinv k). }
    rewrite Hid. by destruct W.
Qed.

Lemma unregister_completed_works_idempotent_witness :
  WorkRegistry.unregister_completed_works cpu_env
    (WorkRegistry.unregister_completed_works cpu_env sample_world).1
  = ((WorkRegistry.unregister_completed_works cpu_env sample_world).1, Ok tt).
Proof.
  pose proof (unregister_completed_works_idempotent cpu_env
                (WorkRegistry.unregister_completed_works cpu_env
                   sample_world).1) as (_ & _ & Hfix).
  apply Hfix; apply (bool_decide_unpack _); vm_compute; exact I.
Defined.

(** X15: a sweep never loses a pending work: a defined work that has not
    completed is still registered under its storage afterwards. *)
Theorem unregister_completed_works_keeps_pending
    (env : Env) (W : World) (storage : option positive)
    (works : list WorkPtr) (w : WorkId) :
  registry_ W !! storage = Some works →
  Some w ∈ works →
  isCompleted env w = false →
  ∃ kept,
    registry_ (WorkRegistry.unregister_completed_works env W).1 !! storage
    = Some kept
    ∧ Some w ∈ kept.
Proof.
  intros Hworks Hin Hw.
  unfold WorkRegistry.unregister_completed_works.
  cbn [fst registry_ set_registry]. rewrite lookup_omap, Hworks. simpl.
  assert (Hkept : Some w ∈ filter (λ work, WorkRegistry.uncompleted env work)
                             works).
  { apply list_elem_of_filter. split; [|done]. simpl. by rewrite Hw. }
  unfold WorkRegistry.sweep_entry.
  destruct (filter _ works) as [|x l] eqn:E.
  - by apply not_elem_of_nil in Hkept.
  - by eexists.
Qed.

Lemma unregister_completed_works_keeps_pending_witness :
  ∃ kept,
    registry_ (WorkRegistry.unregister_completed_works cpu_env sample_world).1
      !! Some 9%positive = Some kept
    ∧ Some 3%positive ∈ kept.
Proof.
  apply (unregister_completed_works_keeps_pending cpu_env sample_world
           (Some 9%positive)
           [Some 1%positive; Some 2%positive; Some 3%positive] 3%positive).
  - reflexivity.
  - apply (bool_decide_unpack _). vm_compute. exact I.
  - reflexivity.
Defined.

Lemma c10d_register_work_sweeping env tensor work W :
  USE_CUDA env = false ∨ USE_ROCM env = true →
  c10d.register_work env tensor work W
  = WorkRegistry.register_work tensor work
      (WorkRegistry.unregister_completed_works env W).1.
Proof.
  intros Hbuild. unfold c10d.register_work, bind.
  rewrite can_unregister_completed_works_value.
  destruct Hbuild as [-> | ->]; [done|].
  by destruct (USE_CUDA env).
Qed.

Lemma trace_register_work_with_storage tensor work W :
  has_storage tensor = true →
  trace (WorkRegistry.register_work tensor work W).1 = trace W.
Proof.
  intros Hst. unfold WorkRegistry.register_work. rewrite Hst. simpl.
  by destruct (registry_ W !! getWeakStorageImpl tensor).
Qed.

(** X16: in a build where the guard is compiled out (no [USE_CUDA], or
    [USE_ROCM]), the free function [register_work] on a tensor with storage
    sweeps first and then registers: the list of the tensor is its
    uncompleted works followed by the new work, every other entry is swept,
    the size grows by one less the number of works swept, and nothing is
    thrown or emitted. *)
Theorem register_work_sweeps_first
    (env : Env) (tensor : Tensor) (work : WorkPtr) (W : World) :
  USE_CUDA env = false ∨ USE_ROCM env = true →
  has_storage tensor = true →
  let W' := (c10d.register_work env tensor work W).1 in
  (c10d.register_work env tensor work W).2 = Ok tt
  ∧ pending W' tensor
    = filter (λ w, WorkRegistry.uncompleted env w) (pending W tensor)
      ++ [work]
  ∧ (∀ storage, storage ≠ getWeakStorageImpl tensor →
       registry_ W' !! storage
       = registry_ W !! storage ≫= WorkRegistry.sweep_entry env)
  ∧ WorkRegistry.total_size (registry_ W') + swept env (registry_ W)
    = WorkRegistry.total_size (registry_ W) + 1
  ∧ trace W' = trace W.
Proof.
  intros Hbuild Hst.
  rewrite c10d_register_work_sweeping by done.
  remember (WorkRegistry.unregister_completed_works env W).1 as V eqn:EV.
  assert (HV : registry_ V
               = omap (WorkRegistry.sweep_entry env) (registry_ W))
    by (by rewrite EV).
  assert (HT : trace V = trace W) by (by rewrite EV).
  cbv zeta. split_and!.
  - unfold WorkRegistry.register_work. rewrite Hst. simpl.
    by destruct (registry_ V !! getWeakStorageImpl tensor).
  - rewrite pending_register_work by done. rewrite EV.
    by rewrite pending_sweep.
  - intros storage Hne. rewrite <- lookup_omap, <- HV.
    unfold WorkRegistry.register_work. rewrite Hst. simpl.
    destruct (registry_ V !! getWeakStorageImpl tensor); simpl;
      by rewrite lookup_insert_ne.
  - rewrite (total_size_sweep env (registry_ W)), <- HV.
    assert (Hone : WorkRegistry.total_size
                     (registry_ (WorkRegistry.register_work tensor work V).1)
                   = WorkRegistry.total_size (registry_ V) + 1).
    { unfold WorkRegistry.register_work. rewrite Hst. simpl.
      destruct (registry_ V !! getWeakStorageImpl tensor) as [ws|] eqn:E;
        simpl.
      - rewrite total_size_insert, (total_size_delete _ _ _ E), length_app.
        simpl. lia.
      - by rewrite total_size_insert_fresh. }
    rewrite Hone. lia.
  - rewrite <- HT. unfold WorkRegistry.register_work. rewrite Hst. simpl.
    by destruct (registry_ V !! getWeakStorageImpl tensor).
Qed.

Lemma register_work_sweeps_first_witness :
  pending (c10d.register_work cpu_env sample_tensor (Some 4%positive)
             sample_world).1 sample_tensor
  = filter (λ w, WorkRegistry.uncompleted cpu_env w)
      (pending sample_world sample_tensor) ++ [Some 4%positive].
Proof.
  apply (register_work_sweeps_first cpu_env sample_tensor (Some 4%positive)
           sample_world).
  - left. reflexivity.
  - reflexivity.
Defined.

(** ** Waiting, continued *)

Lemma wait_tensor_registry env tensor W :
  registry_ (c10d.wait_tensor env tensor W).1
  = delete (getWeakStorageImpl tensor) (registry_ W)
  ∧ warned_once_ (c10d.wait_tensor env tensor W).1 = warned_once_ W.
Proof.
  unfold c10d.wait_tensor, bind. rewrite pop_works_pending.
  set (V := set_registry _ W).
  pose proof (wait_each_registry env (pending W tensor) V) as [Hr Hw].
  destruct (c10d.wait_each env (pending W tensor) V) as [V' [[]|e]];
    simpl in *; by rewrite Hr, Hw.
Qed.

Lemma wait_each_trace env (works : list WorkPtr) W :
  ∃ evs,
    trace (c10d.wait_each env works W).1 = trace W ++ evs
    ∧ evs `prefix_of` (EvWait <$> omap id works).
Proof.
  revert W. induction works as [|[w|] works IH]; intros W; simpl.
  - exists []. by rewrite app_nil_r.
  - unfold bind. simpl. destruct (wait_fails env w).
    + exists [EvWait w]. split; [done|]. by apply prefix_cons, prefix_nil.
    + destruct (IH (emit (EvWait w) W)) as (evs & Htr & Hpre).
      exists (EvWait w :: evs). split.
      * rewrite Htr. simpl. by rewrite <- app_assoc.
      * by apply prefix_cons.
  - exists []. split; [by rewrite app_nil_r|apply prefix_nil].
Qed.

(** X17: whatever the works are and whether or not a wait throws,
    [wait_tensor] removes the entry of the tensor's storage and touches no
    other entry, and all it emits are waits on works of that entry, in list
    order from the first one on. *)
Theorem wait_tensor_frame (env : Env) (tensor : Tensor) (W : World) :
  let W1 := (c10d.wait_tensor env tensor W).1 in
  registry_ W1 = delete (getWeakStorageImpl tensor) (registry_ W)
  ∧ pending W1 tensor = []
  ∧ (∀ other, getWeakStorageImpl other ≠ getWeakStorageImpl tensor →
       pending W1 other = pending W other)
  ∧ (∃ evs, trace W1 = trace W ++ evs
            ∧ evs `prefix_of` (EvWait <$> omap id (pending W tensor)))
  ∧ (∀ t, (c10d.wait_tensor env tensor W).2 = Ok t → t = tensor).
Proof.
  pose proof (wait_tensor_registry env tensor W) as [Hreg _].
  cbv zeta. split_and!.
  - done.
  - unfold pending. by rewrite Hreg, lookup_delete_eq.
  - intros other Hne. unfold pending. by rewrite Hreg, lookup_delete_ne.
  - unfold c10d.wait_tensor, bind. rewrite pop_works_pending.
    set (V := set_registry _ W).
    destruct (wait_each_trace env (pending W tensor) V) as (evs & Htr & Hpre).
    exists evs. split; [|done].
    destruct (c10d.wait_each env (pending W tensor) V) as [V' [[]|e]];
      simpl in *; by rewrite Htr.
  - intros t. unfold c10d.wait_tensor, bind. rewrite pop_works_pending.
    destruct (c10d.wait_each env (pending W tensor) _) as [V' [[]|e]];
      simpl; [|done]. by intros [= <-].
Qed.

Lemma wait_each_app_ok env (ids : list WorkId) (rest : list WorkPtr) W :
  Forall (λ w, wait_fails env w = false) ids →
  c10d.wait_each env ((Some <$> ids) ++ rest) W
  = c10d.wait_each env rest
      (mkWorld (registry_ W) (warned_once_ W) (trace W ++ (EvWait <$> ids))).
Proof.
  intros Hok. revert W. induction Hok as [|w ids Hw _ IH]; intros W; simpl.
  - rewrite app_nil_r. by destruct W.
  - unfold bind at 1. simpl. rewrite Hw, IH. simpl.
    by rewrite <- app_assoc.
Qed.

(** X18: a failing wait ends [wait_tensor]: with works whose waits return,
    then a work whose wait fails, then any further works registered for the
    tensor, the failure of that work is thrown after waits on the works up
    to and including it; the further works are never waited on, and since
    the whole list has left the registry a later [wait_tensor] finds
    nothing. *)
Theorem wait_tensor_failure_propagates
    (env : Env) (tensor : Tensor) (W : World)
    (good : list WorkId) (bad : WorkId) (rest : list WorkPtr) :
  pending W tensor = (Some <$> good) ++ Some bad :: rest →
  Forall (λ w, wait_fails env w = false) good →
  wait_fails env bad = true →
  let W1 := (c10d.wait_tensor env tensor W).1 in
  (c10d.wait_tensor env tensor W).2 = Throw (WorkWaitFailed bad)
  ∧ trace W1 = trace W ++ (EvWait <$> good) ++ [EvWait bad]
  ∧ pending W1 tensor = []
  ∧ c10d.wait_tensor env tensor W1 = (W1, Ok tensor).
Proof.
  intros Hpending Hgood Hbad.
  assert (Hrun : c10d.wait_tensor env tensor W
                 = (mkWorld (delete (getWeakStorageImpl tensor) (registry_ W))
                      (warned_once_ W)
                      ((trace W ++ (EvWait <$> good)) ++ [EvWait bad]),
                    Throw (WorkWaitFailed bad))).
  { unfold c10d.wait_tensor, bind. rewrite pop_works_pending, Hpending.
    rewrite wait_each_app_ok by done. simpl. unfold bind. simpl.
    by rewrite Hbad. }
  rewrite Hrun. cbn [fst snd trace]. split_and!.
  - done.
  - by rewrite <- app_assoc.
  - unfold pending. cbn [registry_]. by rewrite lookup_delete_eq.
  - unfold c10d.wait_tensor, bind. rewrite pop_works_pending.
    unfold pending. cbn [registry_ set_registry warned_once_ trace].
    rewrite lookup_delete_eq. simpl. unfold ret.
    by rewrite delete_delete_eq.
Qed.

Lemma wait_tensor_failure_propagates_witness :
  (c10d.wait_tensor
     (mkEnv false false false false (λ _, false)
        (λ w, bool_decide (w = 2%positive)))
     sample_tensor sample_world).2
  = Throw (WorkWaitFailed 2%positive).
Proof.
  apply (wait_tensor_failure_propagates
           (mkEnv false false false false (λ _, false)
              (λ w, bool_decide (w = 2%positive)))
           sample_tensor sample_world [1%positive] 2%positive
           [Some 3%positive]).
  - reflexivity.
  - repeat constructor.
  - reflexivity.
Defined.

(** ** Tensors without storage *)

Lemma getWeakStorageImpl_without_storage tensor :
  has_storage tensor = false → getWeakStorageImpl tensor = None.
Proof.
  unfold has_storage, getWeakStorageImpl. by destruct (storage tensor).
Qed.

Lemma getWeakStorageImpl_with_storage tensor :
  has_storage tensor = true → getWeakStorageImpl tensor ≠ None.
Proof.
  unfold has_storage, getWeakStorageImpl. by destruct (storage tensor).
Qed.

(** X19: no operation files works under the null weak reference: starting
    from a registry without such an entry, both [register_work]s,
    [pop_works], the sweep and [wait_tensor] leave it without one.  So
    [wait_tensor] on a tensor without storage waits on nothing, changes
    nothing and returns the tensor, also right after a work was registered
    against that tensor. *)
Theorem tensor_without_storage_is_never_tracked
    (env : Env) (tensor other : Tensor) (work : WorkPtr) (W : World) :
  no_null_key (registry_ W) →
  (no_null_key (registry_ (WorkRegistry.register_work other work W).1)
   ∧ no_null_key (registry_ (c10d.register_work env other work W).1)
   ∧ no_null_key (registry_ (WorkRegistry.pop_works other W).1)
   ∧ no_null_key
       (registry_ (WorkRegistry.unregister_completed_works env W).1)
   ∧ no_null_key (registry_ (c10d.wait_tensor env other W).1))
  ∧ (has_storage tensor = false →
     c10d.wait_tensor env tensor W = (W, Ok tensor)
     ∧ c10d.wait_tensor env tensor
         (WorkRegistry.register_work tensor work W).1
       = ((WorkRegistry.register_work tensor work W).1, Ok tensor)).
Proof.
  unfold no_null_key. intros Hnull.
  assert (Hreg : ∀ V, registry_ V !! None = None →
            registry_ (WorkRegistry.register_work other work V).1 !! None
            = None).
  { intros V HV. unfold WorkRegistry.register_work.
    destruct (has_storage other) eqn:Hst; simpl.
    - pose proof (getWeakStorageImpl_with_storage other Hst) as Hne.
      destruct (registry_ V !! getWeakStorageImpl other); simpl;
        by rewrite lookup_insert_ne.
    - unfold TORCH_WARN_ONCE. by destruct (warned_once_ V). }
  assert (Hsweep : registry_ (WorkRegistry.unregister_completed_works env W).1
                     !! None = None).
  { unfold WorkRegistry.unregister_completed_works. simpl.
    by rewrite lookup_omap, Hnull. }
  assert (Hwait : ∀ V, registry_ V !! None = None →
            has_storage tensor = false →
            c10d.wait_tensor env tensor V = (V, Ok tensor)).
  { intros V HV Hst. unfold c10d.wait_tensor, bind.
    rewrite pop_works_pending. unfold pending.
    rewrite (getWeakStorageImpl_without_storage tensor Hst), HV. simpl.
    unfold ret, set_registry. rewrite delete_id by done. by destruct V. }
  split; [split_and!|].
  - by apply Hreg.
  - unfold c10d.register_work, bind.
    rewrite can_unregister_completed_works_value.
    destruct (negb _); [by apply Hreg|]. simpl. by apply Hreg.
  - rewrite pop_works_pending. simpl.
    rewrite lookup_delete. by case_decide.
  - done.
  - destruct (wait_tensor_registry env other W) as [-> _].
    rewrite lookup_delete. by case_decide.
  - intros Hst. split; [by apply Hwait|].
    apply Hwait; [|done].
    unfold WorkRegistry.register_work. rewrite Hst. simpl.
    unfold TORCH_WARN_ONCE. by destruct (warned_once_ W).
Qed.

Lemma tensor_without_storage_is_never_tracked_witness :
  c10d.wait_tensor cpu_env sample_meta_tensor sample_world
  = (sample_world, Ok sample_meta_tensor).
Proof.
  apply (tensor_without_storage_is_never_tracked cpu_env sample_meta_tensor
           sample_tensor (Some 4%positive) sample_world);
    reflexivity.
Defined.

(** ** Registering and waiting through the free functions *)

(** X20: where the sweep runs on every registration (guard compiled out), a
    work that has completed by the time the next work is registered for the
    same tensor is swept then, and [wait_tensor] waits on the later work
    only. *)
Theorem completed_work_is_swept_before_wait
    (env : Env) (tensor : Tensor) (W : World) (w1 w2 : WorkId) :
  USE_CUDA env = false ∨ USE_ROCM env = true →
  has_storage tensor = true →
  pending W tensor = [] →
  isCompleted env w1 = true →
  isCompleted env w2 = false →
  wait_fails env w2 = false →
  let W1 := (c10d.register_work env tensor (Some w1) W).1 in
  let W2 := (c10d.register_work env tensor (Some w2) W1).1 in
  pending W1 tensor = [Some w1]
  ∧ pending W2 tensor = [Some w2]
  ∧ (c10d.wait_tensor env tensor W2).2 = Ok tensor
  ∧ trace (c10d.wait_tensor env tensor W2).1 = trace W ++ [EvWait w2].
Proof.
  intros Hbuild Hst Hnone Hc1 Hc2 Hok. cbv zeta.
  rewrite !c10d_register_work_sweeping by done.
  set (W1 := (WorkRegistry.register_work tensor (Some w1)
                (WorkRegistry.unregister_completed_works env W).1).1).
  set (W2 := (WorkRegistry.register_work tensor (Some w2)
                (WorkRegistry.unregister_completed_works env W1).1).1).
  assert (H1 : pending W1 tensor = [Some w1]).
  { unfold W1. rewrite pending_register_work, pending_sweep, Hnone by done.
    done. }
  assert (H2 : pending W2 tensor = [Some w2]).
  { unfold W2. rewrite pending_register_work, pending_sweep, H1 by done.
    rewrite filter_cons. simpl. by rewrite Hc1. }
  assert (HT : trace W2 = trace W).
  { unfold W2. rewrite trace_register_work_with_storage by done.
    unfold WorkRegistry.unregister_completed_works. cbn [fst trace set_registry].
    unfold W1. by rewrite trace_register_work_with_storage. }
  split_and!; [done|done| |].
  - unfold c10d.wait_tensor, bind. rewrite pop_works_pending, H2.
    change [Some w2] with (Some <$> [w2]).
    rewrite wait_each_ok by (by repeat constructor). done.
  - unfold c10d.wait_tensor, bind. rewrite pop_works_pending, H2.
    change [Some w2] with (Some <$> [w2]).
    rewrite wait_each_ok by (by repeat constructor). simpl. by rewrite HT.
Qed.

Lemma completed_work_is_swept_before_wait_witness :
  trace
    (c10d.wait_tensor cpu_env sample_tensor
       (c10d.register_work cpu_env sample_tensor (Some 3%positive)
          (c10d.register_work cpu_env sample_tensor (Some 1%positive)
             empty_world).1).1).1
  = trace empty_world ++ [EvWait 3%positive].
Proof.
  apply (completed_work_is_swept_before_wait cpu_env sample_tensor empty_world
           1%positive 3%positive).
  - left. reflexivity.
  - reflexivity.
  - reflexivity.
  - reflexivity.
  - reflexivity.
  - reflexivity.
Defined.
